(** * PDF parser service: text reconstruction and normalisation

    A shallow embedding of [pdf-parser-service/main.py]: the text
    normaliser [_post_process_text], the two structured extractors
    [_extract_page_text_rawdict] and [_extract_page_text_blocks], and the two
    endpoints [parse_pdf] and [parse_pdf_text_only].

    Python values are modelled as follows.
    - [str] is a list of characters; a character is a code point below 256
      (the Latin-1 range of Python's [str]), classified as CPython does.
    - [float] is IEEE binary64, Rocq's primitive [float]; arithmetic and
      comparisons are the primitive ones, as in Python.
    - an exception is a value of [exc]; a call that may raise returns
      [result].
    - the PyMuPDF backend is data: what each query of a page returns or
      raises, and what [fitz.open] does each of the two times an endpoint
      may call it.  What the backend returns is well formed (blocks, lines
      and spans are records of the documented shape), so the [isinstance]
      and [len] tests of the source pass and nothing but a backend call
      raises.
    - [sorted] is a stable sort that compares keys with [<]; it is modelled
      on keys that [<] orders, which excludes NaN. *)

From Stdlib Require Import Ascii String List Bool Arith ZArith Lia.
From Stdlib Require Import Floats Permutation Sorted.
Import ListNotations.

Set Implicit Arguments.

(** ** Strings *)

Definition str : Type := list ascii.

Definition lit (s : string) : str := list_ascii_of_string s.

Definition NUL : ascii := "000"%char.
Definition LF : ascii := "010"%char.
Definition HYPHEN : ascii := "-"%char.
Definition SLASH : ascii := "/"%char.

Definition code (c : ascii) : nat := nat_of_ascii c.

Definition between (lo hi n : nat) : bool := (lo <=? n) && (n <=? hi).

(** [str.isspace] on one character, which is also what [\s] matches and what
    [str.strip] removes: TAB..CR, FS..US, space, NEL and NBSP. *)
Definition isspace (c : ascii) : bool :=
  let n := code c in
  between 9 13 n || between 28 32 n || (n =? 133) || (n =? 160).

(** What [\w] matches in a [str] pattern: alphanumerics and the underscore. *)
Definition isword (c : ascii) : bool :=
  let n := code c in
  between 48 57 n || between 65 90 n || (n =? 95) || between 97 122 n
  || (n =? 170) || between 178 179 n || (n =? 181) || between 185 186 n
  || between 188 190 n || between 192 214 n || between 216 246 n
  || between 248 255 n.

(** [sep.join(parts)] *)
Fixpoint join (sep : str) (parts : list str) : str :=
  match parts with
  | [] => []
  | [p] => p
  | p :: ps => p ++ sep ++ join sep ps
  end.

(** [s.replace("\x00", "")] *)
Definition remove_nul (s : str) : str :=
  filter (fun c => negb (Ascii.eqb c NUL)) s.

(** The longest run matched by [\s*]: what is left after it. *)
Fixpoint skip_space (s : str) : str :=
  match s with
  | c :: s' => if isspace c then skip_space s' else s
  | [] => s
  end.

Definition str_eqb (a b : str) : bool :=
  if list_eq_dec ascii_dec a b then true else false.

(** [re.sub(r"https:/\s*/", "https://", s)]: leftmost matches, left to right,
    the scan resuming after each match.  [\s*] is greedy and the character
    after it must be a slash, which is no space, so giving back spaces never
    yields a match. *)
Fixpoint sub_url (s : str) : str :=
  match s with
  | [] => []
  | c1 :: s' =>
      match s' with
      | c2 :: c3 :: c4 :: c5 :: c6 :: c7 :: t =>
          if str_eqb [c1; c2; c3; c4; c5; c6; c7] (lit "https:/") then
            match skip_space t with
            | c8 :: rest =>
                if Ascii.eqb c8 SLASH then lit "https://" ++ sub_url rest
                else c1 :: sub_url s'
            | [] => c1 :: sub_url s'
            end
          else c1 :: sub_url s'
      | _ => c1 :: sub_url s'
      end
  end.

(** [re.sub(r"(\w)-\n(\w)", r"\1\2", s)] *)
Fixpoint sub_hyphen (s : str) : str :=
  match s with
  | [] => []
  | a :: s' =>
      match s' with
      | h :: n :: b :: rest =>
          if isword a && Ascii.eqb h HYPHEN && Ascii.eqb n LF && isword b
          then a :: b :: sub_hyphen rest
          else a :: sub_hyphen s'
      | _ => a :: sub_hyphen s'
      end
  end.

(** [s.lstrip()], [s.rstrip()], [s.strip()] *)
Fixpoint lstrip (s : str) : str :=
  match s with
  | c :: s' => if isspace c then lstrip s' else s
  | [] => []
  end.

Definition rstrip (s : str) : str := rev (lstrip (rev s)).

Definition strip (s : str) : str := rstrip (lstrip s).

Definition _post_process_text (s : str) : str :=
  match s with
  | [] => s
  | _ => strip (sub_hyphen (sub_url (remove_nul s)))
  end.

(** ** Exceptions *)

(** The exception classes the handlers of [main.py] tell apart.
    [RuntimeError] stands for [RuntimeError] and its subclasses, the only
    ones [except RuntimeError] catches; [HTTPException] is what the endpoints
    raise (its status code is not modelled); [OtherException] is any other
    [Exception]. *)
Inductive exc : Type :=
| RuntimeError
| HTTPException
| OtherException.

Definition is_RuntimeError (e : exc) : bool :=
  match e with
  | RuntimeError => true
  | _ => false
  end.

Inductive result (A : Type) : Type :=
| Ok (a : A)
| Raise (e : exc).

Arguments Ok {A} a.
Arguments Raise {A} e.

Definition bind {A B : Type} (r : result A) (k : A -> result B) : result B :=
  match r with
  | Ok a => k a
  | Raise e => Raise e
  end.

Notation "x <- r ;; k" := (bind r (fun x => k))
  (at level 61, r at next level, right associativity).

(** ** [sorted(xs, key=...)]

    Python's sort is stable and compares keys with [<] only.  It is modelled
    by stable insertion; every stable sort returns the same list when [<] is
    a strict weak order on the keys met, which holds for floats that are not
    NaN. *)
Section Sorted.
Variables (A K : Type) (key : A -> K) (lt : K -> K -> bool).

Fixpoint insert_by (x : A) (l : list A) : list A :=
  match l with
  | [] => [x]
  | y :: l' =>
      if lt (key y) (key x) then y :: insert_by x l' else x :: y :: l'
  end.

Fixpoint sorted (l : list A) : list A :=
  match l with
  | [] => []
  | x :: l' => insert_by x (sorted l')
  end.
End Sorted.

(** [a < b] on pairs of floats: the first component where they differ
    decides. *)
Definition tuple_ltb (a b : float * float) : bool :=
  if PrimFloat.eqb (fst a) (fst b) then PrimFloat.ltb (snd a) (snd b)
  else PrimFloat.ltb (fst a) (fst b).

(** ** What the backend returns *)

Record BBox : Type := { x0 : float; y0 : float; x1 : float; y1 : float }.

(** A span of a [rawdict] line: [origin[0]] and [text]. *)
Record Span : Type := { origin_x : float; span_text : str }.

Record Line : Type := { line_bbox : BBox; spans : list Span }.

(** A block of [rawdict]; [block_type] is [None] when the key is absent or
    holds [None]. *)
Record Block : Type :=
  { block_bbox : BBox; block_type : option Z; lines : list Line }.

(** An entry of [get_text("blocks")]:
    [(x0, y0, x1, y1, text, block_no, block_type)]; [tb_type] is [None] when
    the tuple has fewer than seven entries or holds [None] there. *)
Record TextBlock : Type :=
  { tb_x0 : float; tb_y0 : float; tb_x1 : float; tb_y1 : float;
    tb_text : str; tb_no : Z; tb_type : option Z }.

(** A page: the outcome of each of the three [get_text] queries. *)
Record Page : Type :=
  { get_text_rawdict : result (list Block);
    get_text_blocks : result (list TextBlock);
    get_text_text : result str }.

(** [t not in (0, None)] is false. *)
Definition is_text_type (t : option Z) : bool :=
  match t with
  | None => true
  | Some z => Z.eqb z 0
  end.

Definition is_empty {A : Type} (s : list A) : bool :=
  match s with
  | [] => true
  | _ => false
  end.

(** An entry of [collected_lines]: [(y0, y1, x0, text)]. *)
Record CollectedLine : Type :=
  { cl_y0 : float; cl_y1 : float; cl_x0 : float; cl_text : str }.

(** The state of the paragraph loop. *)
Record ParaState : Type :=
  { paragraphs : list str;
    current : list str;
    prev_y1 : option float;
    prev_x0 : option float }.

Definition para_gap_thresh : float := 7.0%float.
Definition indent_thresh : float := 18.0%float.

(** [a > b] on floats *)
Definition gtb (a b : float) : bool := PrimFloat.ltb b a.

Section Extraction.
(** [round(x, 1)], a builtin of Python; the extractors use it in sort keys
    only. *)
Variable round1 : float -> float.

(** *** Tier 2: [_extract_page_text_blocks] *)

Definition block_key (b : TextBlock) : float * float :=
  (round1 (tb_y0 b), round1 (tb_x0 b)).

(** The loop over the blocks, lines 40 to 52. *)
Fixpoint block_texts (blocks : list TextBlock) : list str :=
  match blocks with
  | [] => []
  | b :: bs =>
      if is_empty (tb_text b) then block_texts bs
      else if negb (is_text_type (tb_type b)) then block_texts bs
      else tb_text b :: block_texts bs
  end.

Definition _extract_page_text_blocks (page : Page) : result str :=
  match get_text_blocks page with
  | Raise _ => get_text_text page
  | Ok blocks =>
      let blocks := sorted block_key tuple_ltb blocks in
      let texts := block_texts blocks in
      let joined := join [LF] texts in
      if is_empty joined then get_text_text page else Ok joined
  end.

(** *** Tier 1: [_extract_page_text_rawdict] *)

Definition _bbox_key (b : Block) : float * float :=
  (round1 (y0 (block_bbox b)), round1 (x0 (block_bbox b))).

(** The loop over the spans of a line, lines 106 to 111. *)
Fixpoint span_parts (sps : list Span) : list str :=
  match sps with
  | [] => []
  | sp :: rest =>
      if is_empty (span_text sp) then span_parts rest
      else span_text sp :: span_parts rest
  end.

(** Lines 100 to 114: the spans sorted by x origin, their texts joined
    with no separator. *)
Definition line_parts (sps : list Span) : list str :=
  span_parts (sorted origin_x PrimFloat.ltb sps).

Definition text_line (sps : list Span) : str := concat (line_parts sps).

(** The loop over the lines of one block, lines 97 to 117. *)
Fixpoint collect_lines (lns : list Line) : list CollectedLine :=
  match lns with
  | [] => []
  | ln :: rest =>
      if is_empty (line_parts (spans ln)) then collect_lines rest
      else
        let bbox := line_bbox ln in
        {| cl_y0 := y0 bbox; cl_y1 := y1 bbox; cl_x0 := x0 bbox;
           cl_text := text_line (spans ln) |} :: collect_lines rest
  end.

(** The loop over the blocks, lines 91 to 117. *)
Fixpoint collect_blocks (blocks : list Block) : list CollectedLine :=
  match blocks with
  | [] => []
  | b :: bs =>
      if negb (is_text_type (block_type b)) then collect_blocks bs
      else collect_lines (lines b) ++ collect_blocks bs
  end.

Definition line_key (t : CollectedLine) : float * float :=
  (round1 (cl_y0 t), round1 (cl_x0 t)).

(** [new_para], line 139, for a line after the first. *)
Definition new_para (p_y1 : float) (p_x0 : option float) (t : CollectedLine)
  : bool :=
  let vgap := PrimFloat.sub (cl_y0 t) p_y1 in
  let xdelta :=
    match p_x0 with
    | None => 0%float
    | Some px => PrimFloat.abs (PrimFloat.sub (cl_x0 t) px)
    end in
  gtb vgap para_gap_thresh
  || (gtb xdelta indent_thresh && gtb vgap 2.0%float).

(** One iteration of the paragraph loop, lines 133 to 146. *)
Definition para_step (st : ParaState) (t : CollectedLine) : ParaState :=
  match prev_y1 st with
  | None =>
      {| paragraphs := paragraphs st;
         current := current st ++ [cl_text t];
         prev_y1 := Some (cl_y1 t);
         prev_x0 := Some (cl_x0 t) |}
  | Some p_y1 =>
      if new_para p_y1 (prev_x0 st) t then
        {| paragraphs := paragraphs st ++ [join [LF] (current st)];
           current := [cl_text t];
           prev_y1 := Some (cl_y1 t);
           prev_x0 := Some (cl_x0 t) |}
      else
        {| paragraphs := paragraphs st;
           current := current st ++ [cl_text t];
           prev_y1 := Some (cl_y1 t);
           prev_x0 := Some (cl_x0 t) |}
  end.

Definition para_init : ParaState :=
  {| paragraphs := []; current := []; prev_y1 := None; prev_x0 := None |}.

(** Lines 126 to 149: the loop, then the last paragraph flushed. *)
Definition group_paragraphs (collected_lines : list CollectedLine)
  : list str :=
  let st := fold_left para_step collected_lines para_init in
  match current st with
  | [] => paragraphs st
  | _ => paragraphs st ++ [join [LF] (current st)]
  end.

Definition _extract_page_text_rawdict (page : Page) : result str :=
  match get_text_rawdict page with
  | Raise _ => _extract_page_text_blocks page
  | Ok blocks =>
      let blocks := sorted _bbox_key tuple_ltb blocks in
      let collected_lines := collect_blocks blocks in
      if is_empty collected_lines then _extract_page_text_blocks page
      else
        let collected_lines := sorted line_key tuple_ltb collected_lines in
        let page_text := join [LF; LF] (group_paragraphs collected_lines) in
        if is_empty page_text then _extract_page_text_blocks page
        else Ok page_text
  end.
End Extraction.

(** ** The endpoints *)

(** An opened document.  [needs_pass] is the attribute as the document is
    opened and [needs_pass_authenticated] its value once
    [authenticate("")] has been tried; [load_page] lists the outcome of
    [load_page(i)] for each [i] below [page_count]. *)
Record Document : Type :=
  { needs_pass : bool;
    needs_pass_authenticated : bool;
    load_page : list (result Page) }.

Definition page_count (d : Document) : nat := length (load_page d).

(** Lines 216 to 222: the second reading of [needs_pass]. *)
Definition still_needs_pass (d : Document) : bool :=
  needs_pass d && needs_pass_authenticated d.

(** An upload: its declared type and name, the length of its content, and
    what [fitz.open] does with the content, the first time (line 214) and
    when it is called again on the bytes read back from a [BytesIO]
    (line 245). *)
Record UploadFile : Type :=
  { content_type : option str;
    filename : option str;
    file_size : nat;
    fitz_open : result Document;
    fitz_open_retry : result Document }.

Record PageText : Type := { page_number : nat; page_text : str }.

Record Metadata : Type :=
  { md_page_count : nat; md_filename : option str; md_file_size : nat }.

Record PDFParseResponse : Type :=
  { text : str; pages : list PageText; metadata : Metadata }.

Record TextOnlyResponse : Type :=
  { to_text : str; to_page_count : nat; to_filename : option str }.

(** [s.startswith(prefix)] *)
Fixpoint startswith (s prefix : str) : bool :=
  match prefix, s with
  | [], _ => true
  | p :: prefix', c :: s' => Ascii.eqb c p && startswith s' prefix'
  | _ :: _, [] => false
  end.

(** Lines 199 and 296, negated. *)
Definition is_pdf (ct : option str) : bool :=
  match ct with
  | None => false
  | Some t => negb (is_empty t) && startswith t (lit "application/pdf")
  end.

(** The two accumulators of [parse_pdf], bound before its inner [try]. *)
Record Accum : Type := { pages_data : list PageText; full_text : str }.

Definition accumulate (acc : Accum) (page_num : nat) (cleaned_text : str)
  : Accum :=
  {| pages_data :=
       pages_data acc
       ++ [{| page_number := page_num + 1; page_text := cleaned_text |}];
     full_text := full_text acc ++ cleaned_text ++ [LF] |}.

Section Endpoints.
Variable round1 : float -> float.

(** The page loop of the first attempt, lines 225 to 240, from page index
    [page_num] on: the accumulators as the loop leaves them, and the
    exception that ended it, if any. *)
Fixpoint extract_pages (todo : list (result Page)) (page_num : nat)
  (acc : Accum) : Accum * option exc :=
  match todo with
  | [] => (acc, None)
  | loaded :: rest =>
      match (page <- loaded ;; _extract_page_text_rawdict round1 page) with
      | Raise e => (acc, Some e)
      | Ok ptext =>
          extract_pages rest (S page_num)
            (accumulate acc page_num (_post_process_text ptext))
      end
  end.

(** The page loop of the retry, lines 247 to 252. *)
Fixpoint extract_pages_plain (todo : list (result Page)) (page_num : nat)
  (acc : Accum) : Accum * option exc :=
  match todo with
  | [] => (acc, None)
  | loaded :: rest =>
      match (page <- loaded ;; get_text_text page) with
      | Raise e => (acc, Some e)
      | Ok ptext =>
          extract_pages_plain rest (S page_num)
            (accumulate acc page_num (strip (remove_nul ptext)))
      end
  end.

(** Lines 214 to 240: the body of the inner [try]; [Ok n] carries
    [page_count]. *)
Definition first_attempt (file : UploadFile) (acc : Accum)
  : Accum * result nat :=
  match fitz_open file with
  | Raise e => (acc, Raise e)
  | Ok pdf_document =>
      if still_needs_pass pdf_document then (acc, Raise HTTPException)
      else
        match extract_pages (load_page pdf_document) 0 acc with
        | (acc', None) => (acc', Ok (page_count pdf_document))
        | (acc', Some e) => (acc', Raise e)
        end
  end.

(** Lines 245 to 252: the handler of [RuntimeError]. *)
Definition retry_attempt (file : UploadFile) (acc : Accum)
  : Accum * result nat :=
  match fitz_open_retry file with
  | Raise e => (acc, Raise e)
  | Ok pdf_document =>
      match extract_pages_plain (load_page pdf_document) 0 acc with
      | (acc', None) => (acc', Ok (page_count pdf_document))
      | (acc', Some e) => (acc', Raise e)
      end
  end.

(** [POST /parse].  Whatever is raised leaves the endpoint as an
    [HTTPException]. *)
Definition parse_pdf (file : UploadFile) : result PDFParseResponse :=
  if negb (is_pdf (content_type file)) then Raise HTTPException
  else
    let acc0 := {| pages_data := []; full_text := [] |} in
    let (acc1, r1) := first_attempt file acc0 in
    let (acc2, r2) :=
      match r1 with
      | Raise e =>
          if is_RuntimeError e then retry_attempt file acc1
          else (acc1, r1)
      | Ok _ => (acc1, r1)
      end in
    match r2 with
    | Raise _ => Raise HTTPException
    | Ok n =>
        Ok {| text := _post_process_text (full_text acc2);
              pages := pages_data acc2;
              metadata :=
                {| md_page_count := n;
                   md_filename := filename file;
                   md_file_size := file_size file |} |}
    end.

(** The page loop of [parse_pdf_text_only], lines 321 to 328 and 335 to
    338. *)
Fixpoint extract_text_only (todo : list (result Page)) (full : str)
  : result str :=
  match todo with
  | [] => Ok full
  | loaded :: rest =>
      page <- loaded ;;
      ptext <- _extract_page_text_rawdict round1 page ;;
      extract_text_only rest (full ++ ptext ++ [LF])
  end.

(** [POST /parse-text-only].  Both attempts bind [full_text] afresh. *)
Definition parse_pdf_text_only (file : UploadFile)
  : result TextOnlyResponse :=
  if negb (is_pdf (content_type file)) then Raise HTTPException
  else
    let first :=
      pdf_document <- fitz_open file ;;
      if still_needs_pass pdf_document then Raise HTTPException
      else
        full <- extract_text_only (load_page pdf_document) [] ;;
        Ok (full, page_count pdf_document) in
    let outcome :=
      match first with
      | Raise e =>
          if is_RuntimeError e then
            pdf_document <- fitz_open_retry file ;;
            full <- extract_text_only (load_page pdf_document) [] ;;
            Ok (full, page_count pdf_document)
          else first
      | Ok _ => first
      end in
    match outcome with
    | Raise _ => Raise HTTPException
    | Ok (full, n) =>
        Ok {| to_text := _post_process_text full;
              to_page_count := n;
              to_filename := filename file |}
    end.
End Endpoints.

(** ** [round(x, 1)] on binary64

    CPython rounds the exact value of [x] to the nearest tenth, ties to the
    even tenth, and returns the float nearest to that decimal.  From
    [2^53 / 10] on, that float is [x] itself. *)
Definition round1_binary64 (x : float) : float :=
  match Prim2SF x with
  | S754_finite s m e =>
      if (0 <=? e)%Z then x
      else
        let den := (2 ^ (- e))%Z in
        let num := (Z.pos m * 10)%Z in
        let q := (num / den)%Z in
        let r := (num mod den)%Z in
        let n :=
          if (2 * r <? den)%Z then q
          else if (den <? 2 * r)%Z then (q + 1)%Z
          else if Z.even q then q else (q + 1)%Z in
        if (2 ^ 53 <=? n)%Z then x
        else
          let y := PrimFloat.div (PrimFloat.of_uint63 (Uint63.of_Z n))
                     10%float in
          if s then PrimFloat.opp y else y
  | _ => x
  end.

(** ** Notions the properties are stated with *)

(** A match of [https:/\s*/] at the head of [s]: what follows it. *)
Definition url_match (s : str) : option str :=
  match s with
  | c1 :: c2 :: c3 :: c4 :: c5 :: c6 :: c7 :: t =>
      if str_eqb [c1; c2; c3; c4; c5; c6; c7] (lit "https:/") then
        match skip_space t with
        | c8 :: rest => if Ascii.eqb c8 SLASH then Some rest else None
        | [] => None
        end
      else None
  | _ => None
  end.

(** A match of [(\w)-\n(\w)] at the head of [s]: the two groups and what
    follows. *)
Definition hyphen_match (s : str) : option (ascii * ascii * str) :=
  match s with
  | a :: h :: n :: b :: rest =>
      if isword a && Ascii.eqb h HYPHEN && Ascii.eqb n LF && isword b
      then Some (a, b, rest)
      else None
  | _ => None
  end.

(** [t] holds a word character, a hyphen, a newline and a word character in
    a row. *)
Definition hyphen_break_in (t : str) : Prop :=
  exists pre a b post,
    isword a = true /\ isword b = true
    /\ t = pre ++ a :: HYPHEN :: LF :: b :: post.

(** [t] holds [https:/], at least one space, and a slash in a row. *)
Definition split_url_in (t : str) : Prop :=
  exists pre ws post,
    ws <> [] /\ Forall (fun c => isspace c = true) ws
    /\ t = pre ++ lit "https:/" ++ ws ++ SLASH :: post.

Definition leading_space (s : str) : bool :=
  match s with
  | c :: _ => isspace c
  | [] => false
  end.

Definition trailing_space (s : str) : bool := leading_space (rev s).

(** Two hyphenated line breaks in a row: "a-\nb-\nc". *)
Definition chained_breaks : str :=
  lit "a-" ++ LF :: lit "b-" ++ LF :: lit "c".

(** [lt] is a strict weak order on the keys [ks]: irreflexive, transitive,
    and with transitive incomparability.  Floats that are not NaN satisfy
    it. *)
Definition strict_weak_on {K : Type} (lt : K -> K -> bool) (ks : list K)
  : Prop :=
  forall a b c, In a ks -> In b ks -> In c ks ->
    lt a a = false
    /\ (lt a b = true -> lt b c = true -> lt a c = true)
    /\ (lt a b = false -> lt b c = false -> lt a c = false).

(** [x] may come before [y]: the key of [y] is not below that of [x]. *)
Definition key_le {A K : Type} (key : A -> K) (lt : K -> K -> bool)
  (x y : A) : Prop :=
  lt (key y) (key x) = false.

(** Neither key is below the other: a tie. *)
Definition same_key {K : Type} (lt : K -> K -> bool) (a b : K) : bool :=
  negb (lt a b) && negb (lt b a).

(** The condition of the paragraph segmenter, on a line [cur] and the line
    [prev] before it: [vgap > 7.0 or (xdelta > 18.0 and vgap > 2.0)]. *)
Definition starts_paragraph (prev cur : CollectedLine) : bool :=
  let vgap := PrimFloat.sub (cl_y0 cur) (cl_y1 prev) in
  let xdelta := PrimFloat.abs (PrimFloat.sub (cl_x0 cur) (cl_x0 prev)) in
  PrimFloat.ltb 7.0%float vgap
  || (PrimFloat.ltb 18.0%float xdelta && PrimFloat.ltb 2.0%float vgap).

(** Sample lines: [line_below gap] starts [gap] below the bottom of
    [line_above], at the same left edge. *)
Definition line_above : CollectedLine :=
  {| cl_y0 := 100%float; cl_y1 := 112%float; cl_x0 := 72%float;
     cl_text := lit "above" |}.

Definition line_below (gap : float) : CollectedLine :=
  {| cl_y0 := PrimFloat.add 112%float gap;
     cl_y1 := PrimFloat.add 124%float gap;
     cl_x0 := 72%float;
     cl_text := lit "below" |}.

(** Sample spans: "World" at x = 50 listed before "Hello " at x = 0. *)
Definition spans_hello_world : list Span :=
  [ {| origin_x := 50%float; span_text := lit "World" |};
    {| origin_x := 0%float; span_text := lit "Hello " |} ].

(** Tier 1 yields no structured result on [page]: the [rawdict] query
    raises, or no line is collected from what it returns. *)
Definition tier1_empty (round1 : float -> float) (page : Page) : Prop :=
  forall blocks,
    get_text_rawdict page = Ok blocks ->
    collect_blocks (sorted (_bbox_key round1) tuple_ltb blocks) = [].

(** Tier 2 yields no result on [page]: the [blocks] query raises, or the
    texts it returns join to the empty string. *)
Definition tier2_empty (round1 : float -> float) (page : Page) : Prop :=
  forall blocks,
    get_text_blocks page = Ok blocks ->
    join [LF] (block_texts (sorted (block_key round1) tuple_ltb blocks)) = [].

(** A page with no block of either kind, whose plain text is " x". *)
Definition page_plain_only : Page :=
  {| get_text_rawdict := Ok [];
     get_text_blocks := Ok [];
     get_text_text := Ok (lit " x") |}.

(** A page on which both structured queries raise. *)
Definition page_unstructured : Page :=
  {| get_text_rawdict := Raise RuntimeError;
     get_text_blocks := Raise OtherException;
     get_text_text := Ok (lit "x") |}.

(** The page texts, each followed by one newline, in a row. *)
Definition newline_terminated (ps : list PageText) : str :=
  concat (map (fun p => page_text p ++ [LF]) ps).

(** The two accumulators of [parse_pdf] agree. *)
Definition in_step (acc : Accum) : Prop :=
  full_text acc = newline_terminated (pages_data acc).

(** [p] records the normalised output of the selector on a page that
    loads. *)
Definition records_normalised (round1 : float -> float)
  (loaded : result Page) (p : PageText) : Prop :=
  exists page t,
    loaded = Ok page
    /\ _extract_page_text_rawdict round1 page = Ok t
    /\ page_text p = _post_process_text t.

(** [p] records the plain text of a page that loads, null characters removed
    and stripped. *)
Definition records_plain (loaded : result Page) (p : PageText) : Prop :=
  exists page t,
    loaded = Ok page
    /\ get_text_text page = Ok t
    /\ page_text p = strip (remove_nul t).

Definition acc0 : Accum := {| pages_data := []; full_text := [] |}.

(** Sample backend data. *)

Definition plain_page (t : str) : Page :=
  {| get_text_rawdict := Ok []; get_text_blocks := Ok [];
     get_text_text := Ok t |}.

Definition unit_bbox : BBox :=
  {| x0 := 0%float; y0 := 0%float; x1 := 1%float; y1 := 1%float |}.

(** A page whose positioned spans read "rich" and whose plain text reads
    "plain". *)
Definition rich_page : Page :=
  {| get_text_rawdict :=
       Ok [ {| block_bbox := unit_bbox; block_type := Some 0%Z;
               lines :=
                 [ {| line_bbox := unit_bbox;
                      spans := [ {| origin_x := 0%float;
                                    span_text := lit "rich" |} ] |} ] |} ];
     get_text_blocks := Ok [];
     get_text_text := Ok (lit "plain") |}.

Definition open_document (loaded : list (result Page)) : Document :=
  {| needs_pass := false; needs_pass_authenticated := false;
     load_page := loaded |}.

(** An upload whose first reading loads page 1 and raises a
    [RuntimeError] on loading page 2, and whose second reading loads both
    pages. *)
Definition upload_interrupted : UploadFile :=
  {| content_type := Some (lit "application/pdf");
     filename := Some (lit "a.pdf");
     file_size := 1024;
     fitz_open :=
       Ok (open_document [Ok (plain_page (lit "one")); Raise RuntimeError]);
     fitz_open_retry :=
       Ok (open_document
             [Ok (plain_page (lit "one")); Ok (plain_page (lit "two"))]) |}.

(** An upload that [fitz.open] rejects with a [RuntimeError] the first time
    and opens the second time, with the one page [rich_page]. *)
Definition upload_reopened : UploadFile :=
  {| content_type := Some (lit "application/pdf");
     filename := Some (lit "b.pdf");
     file_size := 2048;
     fitz_open := Raise RuntimeError;
     fitz_open_retry := Ok (open_document [Ok rich_page]) |}.

(** An upload that opens at once, with the one page [rich_page]. *)
Definition upload_plain : UploadFile :=
  {| content_type := Some (lit "application/pdf");
     filename := None;
     file_size := 2048;
     fitz_open := Ok (open_document [Ok rich_page]);
     fitz_open_retry := Raise RuntimeError |}.

(** What [parse_pdf] answers on [upload_plain]. *)
Definition response_plain : PDFParseResponse :=
  {| text := lit "rich";
     pages := [ {| page_number := 1; page_text := lit "rich" |} ];
     metadata :=
       {| md_page_count := 1; md_filename := None; md_file_size := 2048 |} |}.

(** What [parse_pdf_text_only] answers on [upload_plain]. *)
Definition response_text_only : TextOnlyResponse :=
  {| to_text := lit "rich"; to_page_count := 1; to_filename := None |}.

(** [t] is the output of the selector on a page that loads. *)
Definition selected (round1 : float -> float) (loaded : result Page)
  (t : str) : Prop :=
  exists page,
    loaded = Ok page /\ _extract_page_text_rawdict round1 page = Ok t.
(** [t] is [s] with some of its characters deleted. *)
Inductive subseq : str -> str -> Prop :=
| subseq_nil : subseq [] []
| subseq_keep (c : ascii) (t s : str) : subseq t s -> subseq (c :: t) (c :: s)
| subseq_drop (c : ascii) (t s : str) : subseq t s -> subseq t (c :: s).

(** [sp] carries text. *)
Definition span_has_text (sp : Span) : bool := negb (is_empty (span_text sp)).

(** A block of [rawdict] of text type one of whose lines has a span that
    carries text. *)
Definition block_has_text (b : Block) : bool :=
  is_text_type (block_type b)
  && existsb (fun ln => existsb span_has_text (spans ln)) (lines b).

(** An entry of [get_text("blocks")] of text type that carries text. *)
Definition text_block_has_text (b : TextBlock) : bool :=
  negb (is_empty (tb_text b)) && is_text_type (tb_type b).

(** Sample blocks: one block of text type whose only span reads "rich", and
    one entry of [get_text("blocks")] that reads "block". *)
Definition rich_blocks : list Block :=
  [ {| block_bbox := unit_bbox; block_type := Some 0%Z;
       lines :=
         [ {| line_bbox := unit_bbox;
              spans := [ {| origin_x := 0%float;
                            span_text := lit "rich" |} ] |} ] |} ].

Definition sample_text_blocks : list TextBlock :=
  [ {| tb_x0 := 0%float; tb_y0 := 0%float; tb_x1 := 1%float;
       tb_y1 := 1%float; tb_text := lit "block"; tb_no := 0%Z;
       tb_type := Some 0%Z |} ].

(** Every page of the document loads and answers the plain-text query. *)
Definition readable (d : Document) : Prop :=
  Forall (fun loaded =>
            exists page t, loaded = Ok page /\ get_text_text page = Ok t)
    (load_page d).

(** [t] neither begins nor ends with a space character and holds no null
    character. *)
Definition tidy (t : str) : Prop :=
  leading_space t = false /\ trailing_space t = false /\ ~ In NUL t.

(** An upload of a locked document, which would open on a second try. *)
Definition upload_locked : UploadFile :=
  {| content_type := Some (lit "application/pdf");
     filename := Some (lit "c.pdf");
     file_size := 512;
     fitz_open :=
       Ok {| needs_pass := true; needs_pass_authenticated := true;
             load_page := [Ok rich_page] |};
     fitz_open_retry := Ok (open_document [Ok rich_page]) |}.

(** An upload declared as plain text. *)
Definition upload_not_pdf : UploadFile :=
  {| content_type := Some (lit "text/plain");
     filename := Some (lit "d.txt");
     file_size := 16;
     fitz_open := Ok (open_document [Ok rich_page]);
     fitz_open_retry := Ok (open_document [Ok rich_page]) |}.

(** Two entries of [get_text("blocks")], the lower one listed first. *)
Definition text_blocks_lower_first : list TextBlock :=
  [ {| tb_x0 := 72%float; tb_y0 := 300%float; tb_x1 := 500%float;
       tb_y1 := 320%float; tb_text := lit "second"; tb_no := 1%Z;
       tb_type := Some 0%Z |};
    {| tb_x0 := 72%float; tb_y0 := 100%float; tb_x1 := 500%float;
       tb_y1 := 120%float; tb_text := lit "first"; tb_no := 0%Z;
       tb_type := Some 0%Z |} ].

(** Whether, in a text that goes on with a word character after [pre], the
    left-to-right scan of the hyphen rule has a match begin in the last
    three characters of [pre], which takes that word character as its end:
    [pre] ends with a word character, a hyphen and a newline, and that word
    character is not itself the end of such a match.  [r] is [pre]
    reversed. *)
Fixpoint match_pending_rev (r : str) : bool :=
  match r with
  | n :: h :: w :: r' =>
      Ascii.eqb n LF && Ascii.eqb h HYPHEN && isword w
      && negb (match_pending_rev r')
  | _ => false
  end.

Definition match_pending (pre : str) : bool := match_pending_rev (rev pre).

(** The first character of [s] is a word character. *)
Definition word_head (s : str) : bool :=
  match s with
  | c :: _ => isword c
  | [] => false
  end.

(** A page on which the three queries raise. *)
Definition page_failing : Page :=
  {| get_text_rawdict := Raise RuntimeError;
     get_text_blocks := Raise RuntimeError;
     get_text_text := Raise RuntimeError |}.

(** An upload that opens at once, with one page whose plain text is
    [chained_breaks] and which has no block of either kind. *)
Definition upload_chained : UploadFile :=
  {| content_type := Some (lit "application/pdf");
     filename := Some (lit "c.pdf");
     file_size := 512;
     fitz_open := Ok (open_document [Ok (plain_page chained_breaks)]);
     fitz_open_retry := Raise RuntimeError |}.

(** The same document, which [fitz.open] rejects with a [RuntimeError] the
    first time and opens the second time. *)
Definition upload_reopened_chained : UploadFile :=
  {| content_type := Some (lit "application/pdf");
     filename := Some (lit "c.pdf");
     file_size := 512;
     fitz_open := Raise RuntimeError;
     fitz_open_retry := Ok (open_document [Ok (plain_page chained_breaks)]) |}.

(** * Properties of the text normaliser *)

Arguments isword : simpl never.
Arguments isspace : simpl never.

Lemma str_length_ind (P : str -> Prop) :
  (forall s, (forall t, length t < length s -> P t) -> P s) ->
  forall s, P s.
Proof.
  intros step s.
  remember (length s) as n eqn:Hn.
  revert s Hn.
  induction n as [n IH] using lt_wf_ind.
  intros s ->.
  apply step.
  intros t Ht.
  exact (IH (length t) Ht t eq_refl).
Qed.

(** *** Stripping *)

Lemma lstrip_split (s : str) :
  exists w, s = w ++ lstrip s /\ Forall (fun c => isspace c = true) w.
Proof.
  induction s as [|c s [w [Hw Hall]]].
  - exists []. split; [reflexivity | constructor].
  - simpl. destruct (isspace c) eqn:Hc.
    + exists (c :: w). split.
      * simpl. now rewrite <- Hw.
      * now constructor.
    + exists []. split; [reflexivity | constructor].
Qed.

Lemma lstrip_leading (s : str) : leading_space (lstrip s) = false.
Proof.
  induction s as [|c s IH]; [reflexivity|].
  simpl. destruct (isspace c) eqn:Hc; [exact IH|].
  simpl. exact Hc.
Qed.

Lemma lstrip_fixed (s : str) : leading_space s = false -> lstrip s = s.
Proof.
  destruct s as [|c s]; [reflexivity|].
  simpl. now intros ->.
Qed.

Lemma rstrip_split (s : str) :
  exists w, s = rstrip s ++ w /\ Forall (fun c => isspace c = true) w.
Proof.
  unfold rstrip.
  destruct (lstrip_split (rev s)) as [w [Hw Hall]].
  exists (rev w). split.
  - rewrite <- rev_app_distr, <- Hw. now rewrite rev_involutive.
  - now apply Forall_rev.
Qed.

Lemma rstrip_trailing (s : str) : trailing_space (rstrip s) = false.
Proof.
  unfold trailing_space, rstrip.
  rewrite rev_involutive.
  apply lstrip_leading.
Qed.

Lemma rstrip_leading (s : str) :
  leading_space s = false -> leading_space (rstrip s) = false.
Proof.
  intros Hs.
  destruct (rstrip_split s) as [w [Hw _]].
  destruct (rstrip s) as [|c u]; [reflexivity|].
  rewrite Hw in Hs. exact Hs.
Qed.

Lemma strip_leading (s : str) : leading_space (strip s) = false.
Proof. apply rstrip_leading, lstrip_leading. Qed.

Lemma strip_trailing (s : str) : trailing_space (strip s) = false.
Proof. apply rstrip_trailing. Qed.

Lemma strip_fixed (s : str) :
  leading_space s = false -> trailing_space s = false -> strip s = s.
Proof.
  intros Hl Ht.
  unfold strip. rewrite (lstrip_fixed _ Hl).
  unfold rstrip. rewrite (lstrip_fixed _ Ht).
  apply rev_involutive.
Qed.

Lemma strip_incl (s : str) (c : ascii) : In c (strip s) -> In c s.
Proof.
  intros Hc.
  destruct (lstrip_split s) as [w [Hw _]].
  destruct (rstrip_split (lstrip s)) as [v [Hv _]].
  rewrite Hw, Hv.
  apply in_or_app. right. apply in_or_app. now left.
Qed.

Lemma post_leading (s : str) : leading_space (_post_process_text s) = false.
Proof.
  destruct s as [|c s]; [reflexivity|].
  apply strip_leading.
Qed.

Lemma post_trailing (s : str) : trailing_space (_post_process_text s) = false.
Proof.
  destruct s as [|c s]; [reflexivity|].
  apply strip_trailing.
Qed.

Lemma not_trailing_LF (s u : str) : trailing_space s = false -> s <> u ++ [LF].
Proof.
  intros Hs ->.
  unfold trailing_space in Hs.
  rewrite rev_app_distr in Hs.
  discriminate Hs.
Qed.

(** *** Removing null characters *)

Lemma remove_nul_fixed (s : str) : ~ In NUL s -> remove_nul s = s.
Proof.
  induction s as [|c s IH]; [reflexivity|].
  intros Hn. simpl.
  destruct (Ascii.eqb c NUL) eqn:Hc.
  - apply Ascii.eqb_eq in Hc. exfalso. apply Hn. now left.
  - simpl. f_equal. apply IH. intros H. apply Hn. now right.
Qed.

Lemma remove_nul_clean (s : str) : ~ In NUL (remove_nul s).
Proof.
  unfold remove_nul. intros H. apply filter_In in H.
  destruct H as [_ H]. now rewrite Ascii.eqb_refl in H.
Qed.

(** *** The two rewriting rules, one match at a time *)

Lemma sub_hyphen_eq (a : ascii) (s : str) :
  sub_hyphen (a :: s) =
  match hyphen_match (a :: s) with
  | Some (x, y, rest) => x :: y :: sub_hyphen rest
  | None => a :: sub_hyphen s
  end.
Proof.
  destruct s as [|h [|n [|b rest]]]; try reflexivity.
  simpl.
  now destruct (isword a && Ascii.eqb h HYPHEN && Ascii.eqb n LF && isword b).
Qed.

Lemma hyphen_match_Some (s : str) (a b : ascii) (rest : str) :
  hyphen_match s = Some (a, b, rest) ->
  s = a :: HYPHEN :: LF :: b :: rest /\ isword a = true /\ isword b = true.
Proof.
  destruct s as [|a' [|h [|n [|b' r]]]]; try discriminate.
  simpl.
  destruct (isword a') eqn:Ha; try discriminate.
  destruct (Ascii.eqb h HYPHEN) eqn:Hh; try discriminate.
  destruct (Ascii.eqb n LF) eqn:Hn; try discriminate.
  destruct (isword b') eqn:Hb; try discriminate.
  simpl. intros H. injection H as <- <- <-.
  apply Ascii.eqb_eq in Hh, Hn. subst h n. auto.
Qed.

Lemma hyphen_match_here (a b : ascii) (rest : str) :
  isword a = true -> isword b = true ->
  hyphen_match (a :: HYPHEN :: LF :: b :: rest) = Some (a, b, rest).
Proof. intros Ha Hb. simpl. now rewrite Ha, Hb. Qed.

Lemma sub_url_eq (c : ascii) (s : str) :
  sub_url (c :: s) =
  match url_match (c :: s) with
  | Some rest => lit "https://" ++ sub_url rest
  | None => c :: sub_url s
  end.
Proof.
  destruct s as [|c2 [|c3 [|c4 [|c5 [|c6 [|c7 t]]]]]]; try reflexivity.
  cbn [sub_url url_match].
  destruct (str_eqb [c; c2; c3; c4; c5; c6; c7] (lit "https:/"));
    [|reflexivity].
  destruct (skip_space t) as [|c8 rest]; [reflexivity|].
  now destruct (Ascii.eqb c8 SLASH).
Qed.

Lemma skip_space_split (s : str) :
  exists ws, s = ws ++ skip_space s /\ Forall (fun c => isspace c = true) ws.
Proof.
  induction s as [|c s [ws [Hs Hall]]].
  - exists []. split; [reflexivity | constructor].
  - simpl. destruct (isspace c) eqn:Hc.
    + exists (c :: ws). split; [simpl; now rewrite <- Hs | now constructor].
    + exists []. split; [reflexivity | constructor].
Qed.

Lemma str_eqb_eq (a b : str) : str_eqb a b = true -> a = b.
Proof. unfold str_eqb. now destruct (list_eq_dec ascii_dec a b). Qed.

Lemma url_match_Some (s rest : str) :
  url_match s = Some rest ->
  exists ws,
    s = lit "https:/" ++ ws ++ SLASH :: rest
    /\ Forall (fun c => isspace c = true) ws.
Proof.
  destruct s as [|c1 [|c2 [|c3 [|c4 [|c5 [|c6 [|c7 t]]]]]]]; try discriminate.
  cbn [url_match].
  destruct (str_eqb [c1; c2; c3; c4; c5; c6; c7] (lit "https:/")) eqn:Hp;
    [|discriminate].
  apply str_eqb_eq in Hp.
  destruct (skip_space_split t) as [ws [Ht Hall]].
  destruct (skip_space t) as [|c8 r]; [discriminate|].
  destruct (Ascii.eqb c8 SLASH) eqn:H8; [|discriminate].
  intros H. injection H as <-.
  apply Ascii.eqb_eq in H8. subst c8.
  exists ws. split; [|exact Hall].
  change (c1 :: c2 :: c3 :: c4 :: c5 :: c6 :: c7 :: t)
    with ([c1; c2; c3; c4; c5; c6; c7] ++ t).
  now rewrite Hp, Ht at 1.
Qed.

Lemma url_match_shorter (s rest : str) :
  url_match s = Some rest -> length rest < length s.
Proof.
  intros H. apply url_match_Some in H. destruct H as [ws [-> _]].
  rewrite !length_app. simpl. lia.
Qed.

(** *** Which characters the rules can leave *)

Lemma sub_url_incl (c : ascii) (s : str) :
  In c (sub_url s) -> In c s \/ In c (lit "https://").
Proof.
  induction s as [s IH] using str_length_ind.
  destruct s as [|d s]; [now left|].
  rewrite sub_url_eq.
  destruct (url_match (d :: s)) as [rest|] eqn:Hm.
  - intros H. apply in_app_or in H. destruct H as [H|H]; [now right|].
    pose proof (url_match_shorter _ Hm) as Hlen.
    apply url_match_Some in Hm. destruct Hm as [ws [Hs _]].
    destruct (IH rest Hlen H) as [Hr|Hr]; [left | now right].
    rewrite Hs. apply in_or_app. right. apply in_or_app. right. now right.
  - intros [H|H]; [left; now left|].
    destruct (IH s (Nat.lt_succ_diag_r _) H) as [Hr|Hr];
      [left; now right | now right].
Qed.

Lemma sub_hyphen_incl (c : ascii) (s : str) :
  In c (sub_hyphen s) -> In c s.
Proof.
  induction s as [s IH] using str_length_ind.
  destruct s as [|a s]; [auto|].
  rewrite sub_hyphen_eq.
  destruct (hyphen_match (a :: s)) as [[[x y] rest]|] eqn:Hm.
  - apply hyphen_match_Some in Hm. destruct Hm as [Hs _].
    rewrite Hs. intros [H|[H|H]].
    + now left.
    + subst c. right. right. right. now left.
    + right. right. right. right. apply IH; [|exact H].
      injection Hs as _ ->. simpl. lia.
  - intros [H|H]; [now left|].
    right. apply IH; [simpl; lia | exact H].
Qed.

Lemma post_no_nul (s : str) : ~ In NUL (_post_process_text s).
Proof.
  destruct s as [|c s]; [simpl; tauto|].
  cbn [_post_process_text]. intros H.
  apply strip_incl, sub_hyphen_incl, sub_url_incl in H.
  destruct H as [H|H].
  - exact (remove_nul_clean _ H).
  - vm_compute in H. intuition discriminate.
Qed.

(** *** When a rule has nothing to rewrite *)

Lemma sub_hyphen_fixed (t : str) : ~ hyphen_break_in t -> sub_hyphen t = t.
Proof.
  induction t as [|a t IH]; [reflexivity|].
  intros Hn. rewrite sub_hyphen_eq.
  destruct (hyphen_match (a :: t)) as [[[x y] rest]|] eqn:Hm.
  - exfalso. apply Hn.
    apply hyphen_match_Some in Hm. destruct Hm as [Hs [Hx Hy]].
    exists [], x, y, rest. auto.
  - f_equal. apply IH.
    intros [pre [x [y [post [Hx [Hy Ht]]]]]]. apply Hn.
    exists (a :: pre), x, y, post. subst t. auto.
Qed.

Lemma sub_url_fixed (t : str) : ~ split_url_in t -> sub_url t = t.
Proof.
  induction t as [t IH] using str_length_ind.
  destruct t as [|c t]; [reflexivity|].
  intros Hn. rewrite sub_url_eq.
  destruct (url_match (c :: t)) as [rest|] eqn:Hm.
  - pose proof (url_match_shorter _ Hm) as Hlen.
    apply url_match_Some in Hm. destruct Hm as [ws [Hs Hall]].
    destruct ws as [|w ws].
    + rewrite Hs. change (lit "https:/" ++ [] ++ SLASH :: rest)
        with (lit "https://" ++ rest).
      f_equal. apply IH; [exact Hlen|].
      intros [pre [ws [post [Hws [Hsp Hr]]]]]. apply Hn.
      exists (lit "https://" ++ pre), ws, post.
      repeat split; auto.
      rewrite Hs, Hr. reflexivity.
    + exfalso. apply Hn. exists [], (w :: ws), rest.
      repeat split; auto. discriminate.
  - f_equal. apply IH; [simpl; lia|].
    intros [pre [ws [post [Hws [Hsp Hr]]]]]. apply Hn.
    exists (c :: pre), ws, post. subst t. auto.
Qed.

(** *** The hyphen rule across a cut *)

(** The rule works on the two sides of a cut separately when no match
    starts in the last three characters before the cut and ends after it. *)
Lemma sub_hyphen_app (pre suf : str) :
  (forall p q, pre = p ++ q -> q <> [] -> length q < 4 ->
               hyphen_match (q ++ suf) = None) ->
  sub_hyphen (pre ++ suf) = sub_hyphen pre ++ sub_hyphen suf.
Proof.
  induction pre as [pre IH] using str_length_ind.
  intros Hcut.
  destruct pre as [|a pre]; [reflexivity|].
  assert (Htail : forall p q, pre = p ++ q -> q <> [] -> length q < 4 ->
                              hyphen_match (q ++ suf) = None).
  { intros p q -> Hq Hlen. now apply (Hcut (a :: p) q). }
  change ((a :: pre) ++ suf) with (a :: (pre ++ suf)).
  rewrite !sub_hyphen_eq.
  destruct pre as [|h [|n [|b r]]].
  - pose proof (Hcut [] [a] eq_refl) as H0. cbn [app length] in H0 |- *.
    rewrite H0 by (discriminate || lia). reflexivity.
  - pose proof (Hcut [] [a; h] eq_refl) as H0. cbn [app length] in H0 |- *.
    rewrite H0 by (discriminate || lia).
    cbn [hyphen_match app].
    f_equal. apply (IH [h]); [simpl; lia | exact Htail].
  - pose proof (Hcut [] [a; h; n] eq_refl) as H0.
    cbn [app length] in H0 |- *.
    rewrite H0 by (discriminate || lia).
    cbn [hyphen_match app].
    f_equal. apply (IH [h; n]); [simpl; lia | exact Htail].
  - cbn [hyphen_match app].
    destruct (isword a && Ascii.eqb h HYPHEN && Ascii.eqb n LF && isword b).
    + cbn [app]. do 2 f_equal. apply IH; [simpl; lia|].
      intros p q -> Hq Hlen.
      apply (Hcut (a :: h :: n :: b :: p) q); auto.
    + cbn [app]. f_equal.
      apply (IH (h :: n :: b :: r)); [simpl; lia | exact Htail].
Qed.

Lemma word_not_hyphen (a : ascii) :
  isword a = true -> Ascii.eqb a HYPHEN = false.
Proof.
  intros Ha. destruct (Ascii.eqb a HYPHEN) eqn:E; [|reflexivity].
  apply Ascii.eqb_eq in E. subst a. discriminate Ha.
Qed.

Lemma word_not_LF (a : ascii) : isword a = true -> Ascii.eqb a LF = false.
Proof.
  intros Ha. destruct (Ascii.eqb a LF) eqn:E; [|reflexivity].
  apply Ascii.eqb_eq in E. subst a. discriminate Ha.
Qed.

Lemma hyphen_match_not_word (c : ascii) (s : str) :
  isword c = false -> hyphen_match (c :: s) = None.
Proof.
  intros Hc. destruct s as [|h [|n [|b r]]]; try reflexivity.
  simpl. now rewrite Hc.
Qed.

Lemma hyphen_break_has_hyphen (t : str) : hyphen_break_in t -> In HYPHEN t.
Proof.
  intros [pre [a [b [post [_ [_ ->]]]]]].
  apply in_or_app. right. right. now left.
Qed.

Lemma split_url_has_slash (t : str) : split_url_in t -> In SLASH t.
Proof.
  intros [pre [ws [post [_ [_ ->]]]]].
  apply in_or_app. right. apply in_or_app. right.
  apply in_or_app. right. now left.
Qed.

(** *** How much a rule shortens the text *)

Lemma strip_length (s : str) : length (strip s) <= length s.
Proof.
  destruct (lstrip_split s) as [w [Hw _]].
  destruct (rstrip_split (lstrip s)) as [v [Hv _]].
  apply (f_equal (@length ascii)) in Hw, Hv.
  rewrite length_app in Hw, Hv. unfold strip. lia.
Qed.

Lemma sub_hyphen_length (s : str) : length (sub_hyphen s) <= length s.
Proof.
  induction s as [s IH] using str_length_ind.
  destruct s as [|a s]; [auto|].
  rewrite sub_hyphen_eq.
  destruct (hyphen_match (a :: s)) as [[[x y] rest]|] eqn:Hm.
  - apply hyphen_match_Some in Hm. destruct Hm as [Hs _].
    rewrite Hs. cbn [length].
    assert (length (sub_hyphen rest) <= length rest).
    { apply IH. rewrite Hs. simpl. lia. }
    lia.
  - cbn [length]. assert (length (sub_hyphen s) <= length s).
    { apply IH. simpl. lia. }
    lia.
Qed.

Lemma sub_hyphen_shrinks (s : str) :
  hyphen_break_in s -> length (sub_hyphen s) < length s.
Proof.
  induction s as [|a s IH]; intros [pre [x [y [post [Hx [Hy Hs]]]]]].
  - now destruct pre.
  - rewrite sub_hyphen_eq.
    destruct (hyphen_match (a :: s)) as [[[x' y'] rest]|] eqn:Hm.
    + apply hyphen_match_Some in Hm. destruct Hm as [Hs' _].
      rewrite Hs'. cbn [length].
      pose proof (sub_hyphen_length rest). lia.
    + destruct pre as [|p pre].
      * cbn [app] in Hs. rewrite Hs, hyphen_match_here in Hm by assumption.
        discriminate.
      * cbn [app] in Hs. injection Hs as -> ->.
        cbn [length]. apply -> Nat.succ_lt_mono. apply IH.
        now exists pre, x, y, post.
Qed.

Lemma skip_space_app (ws post : str) :
  Forall (fun c => isspace c = true) ws ->
  skip_space (ws ++ SLASH :: post) = SLASH :: post.
Proof.
  induction 1 as [|w ws Hw _ IH]; [reflexivity|].
  cbn [app skip_space]. now rewrite Hw.
Qed.

Lemma url_match_here (ws post : str) :
  Forall (fun c => isspace c = true) ws ->
  url_match (lit "https:/" ++ ws ++ SLASH :: post) = Some post.
Proof.
  intros Hws.
  change (lit "https:/" ++ ws ++ SLASH :: post)
    with ("h" :: "t" :: "t" :: "p" :: "s" :: ":" :: "/"
          :: (ws ++ SLASH :: post))%char.
  cbn [url_match].
  change (str_eqb ["h"; "t"; "t"; "p"; "s"; ":"; "/"]%char (lit "https:/"))
    with true.
  cbv iota. now rewrite skip_space_app.
Qed.

(** A split address in a text that begins with "https://" lies after it. *)
Lemma split_url_after_whole (rest : str) :
  split_url_in (lit "https://" ++ rest) -> split_url_in rest.
Proof.
  intros [pre [ws [post [Hws [Hsp H]]]]].
  destruct ws as [|w ws]; [congruence|].
  pose proof (Forall_inv Hsp) as Hw.
  unfold lit in H. cbn [list_ascii_of_string app] in H.
  destruct pre as [|p1 [|p2 [|p3 [|p4 [|p5 [|p6 [|p7 [|p8 pre]]]]]]]];
    cbn [app] in H; injection H; intros; subst; try discriminate.
  exists pre, (w :: ws), post.
  split; [discriminate | split; [exact Hsp | reflexivity]].
Qed.

Lemma sub_url_length_or_fixed (s : str) :
  length (sub_url s) < length s \/ sub_url s = s.
Proof.
  induction s as [s IH] using str_length_ind.
  destruct s as [|c s]; [now right|].
  rewrite sub_url_eq.
  destruct (url_match (c :: s)) as [rest|] eqn:Hm.
  - pose proof (url_match_shorter _ Hm) as Hlen.
    apply url_match_Some in Hm. destruct Hm as [ws [Hs _]].
    rewrite Hs. rewrite !length_app. cbn [length].
    destruct (IH rest Hlen) as [H|H].
    + left. change (length (lit "https://")) with 8.
      change (length (lit "https:/")) with 7. lia.
    + destruct ws as [|w ws].
      * right. now rewrite H.
      * left. rewrite H. change (length (lit "https://")) with 8.
        change (length (lit "https:/")) with 7. cbn [length]. lia.
  - destruct (IH s (Nat.lt_succ_diag_r _)) as [H|H].
    + left. cbn [length]. lia.
    + right. now rewrite H.
Qed.

Lemma sub_url_shrinks (s : str) :
  split_url_in s -> length (sub_url s) < length s.
Proof.
  induction s as [s IH] using str_length_ind.
  intros Hsplit.
  destruct s as [|c s].
  { destruct Hsplit as [pre [ws [post [_ [_ H]]]]]. now destruct pre. }
  rewrite sub_url_eq.
  destruct (url_match (c :: s)) as [rest|] eqn:Hm.
  - pose proof (url_match_shorter _ Hm) as Hlen.
    apply url_match_Some in Hm. destruct Hm as [ws [Hs _]].
    rewrite Hs in Hsplit |- *. rewrite !length_app. cbn [length].
    change (length (lit "https://")) with 8.
    change (length (lit "https:/")) with 7.
    destruct ws as [|w ws].
    + apply split_url_after_whole in Hsplit.
      pose proof (IH rest Hlen Hsplit). cbn [length]. lia.
    + destruct (sub_url_length_or_fixed rest) as [H|H];
        [|rewrite H]; cbn [length]; lia.
  - destruct Hsplit as [pre [ws [post [Hws [Hsp H]]]]].
    destruct pre as [|p pre].
    + cbn [app] in H. rewrite H, url_match_here in Hm by assumption.
      discriminate.
    + cbn [app] in H. injection H as -> ->.
      cbn [length]. apply -> Nat.succ_lt_mono.
      apply IH; [simpl; lia|]. now exists pre, ws, post.
Qed.

(** A text without null characters that still holds something to rewrite
    gets shorter. *)
Lemma post_shrinks (t : str) :
  ~ In NUL t ->
  split_url_in t \/ hyphen_break_in t ->
  length (_post_process_text t) < length t.
Proof.
  intros Hnul Hocc.
  destruct t as [|c t].
  { destruct Hocc as [[pre [? [? [_ [_ H]]]]] | [pre [? [? [? [_ [_ H]]]]]]];
      now destruct pre. }
  cbn [_post_process_text]. rewrite (remove_nul_fixed _ Hnul).
  pose proof (strip_length (sub_hyphen (sub_url (c :: t)))) as H1.
  pose proof (sub_hyphen_length (sub_url (c :: t))) as H2.
  destruct (sub_url_length_or_fixed (c :: t)) as [H3|H3]; [lia|].
  destruct Hocc as [Hu|Hh].
  - apply sub_url_shrinks in Hu. lia.
  - rewrite H3 in H1 |- *. apply sub_hyphen_shrinks in Hh. lia.
Qed.

(** *** Worked values *)

Example post_url_example :
  _post_process_text (lit "https:/" ++ LF :: lit "/example.com")
  = lit "https://example.com".
Proof. reflexivity. Qed.

Example post_chained_once :
  _post_process_text chained_breaks = lit "ab-" ++ LF :: lit "c".
Proof. reflexivity. Qed.

Example post_chained_twice :
  _post_process_text (_post_process_text chained_breaks) = lit "abc".
Proof. reflexivity. Qed.

(** A break that the first pass puts together: "ht-\ntps:/ /" becomes
    "https:/ /", which only a second pass repairs. *)
Example post_url_after_hyphen :
  let s := lit "ht-" ++ LF :: lit "tps:/ /x" in
  _post_process_text s = lit "https:/ /x"
  /\ _post_process_text (_post_process_text s) = lit "https://x".
Proof. split; reflexivity. Qed.

(** *** Claims on the normaliser *)

(** C4, as stated: normalising twice is not always normalising once.  On
    "a-\nb-\nc" the first pass joins "a" and "b" and leaves "b-\nc", which the
    second pass joins. *)
Lemma normalise_twice_differs :
  _post_process_text (_post_process_text chained_breaks)
  <> _post_process_text chained_breaks.
Proof. vm_compute. discriminate. Qed.

(** C4, amended: normalising twice equals normalising once exactly when
    the once-normalised text holds no hyphenated line break and no split
    "https:/ /" any more. *)
Theorem normalise_twice (s : str) :
  _post_process_text (_post_process_text s) = _post_process_text s
  <-> ~ split_url_in (_post_process_text s)
      /\ ~ hyphen_break_in (_post_process_text s).
Proof.
  pose proof (post_no_nul s) as Hnul.
  split.
  - intros Heq.
    assert (Hno : ~ (split_url_in (_post_process_text s)
                     \/ hyphen_break_in (_post_process_text s))).
    { intros Hocc. apply (post_shrinks Hnul) in Hocc.
      rewrite Heq in Hocc. lia. }
    tauto.
  - intros [Hurl Hhyp].
    pose proof (post_leading s) as Hl.
    pose proof (post_trailing s) as Ht.
    destruct (_post_process_text s) as [|c t] eqn:E; [reflexivity|].
    cbn [_post_process_text].
    rewrite (remove_nul_fixed _ Hnul), (sub_url_fixed Hurl),
      (sub_hyphen_fixed Hhyp).
    now apply strip_fixed.
Qed.

Lemma normalise_twice_witness :
  let s := lit " exam-" ++ LF :: lit "ple " in
  _post_process_text (_post_process_text s) = _post_process_text s.
Proof.
  apply (proj2 (normalise_twice (lit " exam-" ++ LF :: lit "ple "))).
  split.
  - intros H. apply split_url_has_slash in H.
    vm_compute in H. intuition discriminate.
  - intros H. apply hyphen_break_has_hyphen in H.
    vm_compute in H. intuition discriminate.
Defined.

(** C6, as stated: the rule does not rewrite every occurrence.  In
    "a-\nb-\nc" the occurrence "b-\nc" begins with the character that ends
    the match "a-\nb"; the scan resumes after that match and leaves the
    hyphen and the newline of "b-\nc" in place. *)
Lemma hyphen_rule_misses_overlap :
  let pre := lit "a-" ++ [LF] in
  chained_breaks = pre ++ "b"%char :: HYPHEN :: LF :: "c"%char :: []
  /\ isword "b" = true /\ isword "c" = true
  /\ sub_hyphen chained_breaks = lit "ab-" ++ LF :: lit "c"
  /\ sub_hyphen chained_breaks
     <> sub_hyphen pre ++ "b"%char :: "c"%char :: sub_hyphen [].
Proof. vm_compute. repeat split. discriminate. Qed.

(** *** Which occurrences the scan of the hyphen rule reaches *)

Lemma match_pending_snoc3 (p : str) (n3 n2 n1 : ascii) :
  match_pending (p ++ [n3; n2; n1])
  = Ascii.eqb n1 LF && Ascii.eqb n2 HYPHEN && isword n3
    && negb (match_pending p).
Proof.
  unfold match_pending. rewrite rev_app_distr. reflexivity.
Qed.

Lemma last_three (l : str) :
  length l < 3 \/ exists p n3 n2 n1, l = p ++ [n3; n2; n1].
Proof.
  destruct (rev l) as [|n1 [|n2 [|n3 r]]] eqn:E;
    apply (f_equal (@rev ascii)) in E; rewrite rev_involutive in E;
    subst l; cbn [rev app length].
  - left. lia.
  - left. lia.
  - left. lia.
  - right. exists (rev r), n3, n2, n1. now rewrite <- !app_assoc.
Qed.

(** A character that the scan copies does not change what is pending at
    the end. *)
Lemma match_pending_copy (pre suf : str) (c : ascii) :
  word_head suf = true ->
  hyphen_match (c :: pre ++ suf) = None ->
  match_pending (c :: pre) = match_pending pre.
Proof.
  revert c suf.
  induction pre as [pre IH] using str_length_ind.
  intros c suf Hsuf Hm.
  destruct (last_three pre) as [Hlen | [p [n3 [n2 [n1 ->]]]]].
  - destruct pre as [|x [|y [|z pre]]]; try reflexivity;
      [|simpl in Hlen; lia].
    destruct suf as [|a suf]; [discriminate|].
    cbn [word_head] in Hsuf. cbn [app hyphen_match] in Hm.
    rewrite Hsuf, andb_true_r in Hm.
    change (match_pending [c; x; y])
      with (Ascii.eqb y LF && Ascii.eqb x HYPHEN && isword c && true).
    change (match_pending [x; y]) with false.
    destruct (isword c), (Ascii.eqb x HYPHEN), (Ascii.eqb y LF);
      (reflexivity || discriminate).
  - change (c :: p ++ [n3; n2; n1]) with ((c :: p) ++ [n3; n2; n1]).
    rewrite !match_pending_snoc3.
    destruct (isword n3) eqn:H3; [|now rewrite !andb_false_r].
    f_equal. f_equal.
    apply (IH p) with (suf := n3 :: n2 :: n1 :: suf).
    + rewrite length_app. simpl. lia.
    + exact H3.
    + rewrite <- Hm. now rewrite <- app_assoc.
Qed.

(** Nor does a match that the scan rewrites. *)
Lemma match_pending_match (w1 w2 : ascii) (r : str) :
  isword w1 = true -> isword w2 = true ->
  match_pending (w1 :: HYPHEN :: LF :: w2 :: r) = match_pending r.
Proof.
  intros H1 H2.
  induction r as [r IH] using str_length_ind.
  destruct (last_three r) as [Hlen | [p [n3 [n2 [n1 ->]]]]].
  - destruct r as [|x [|y [|z r]]]; [| | |simpl in Hlen; lia].
    + change (match_pending [w1; HYPHEN; LF; w2])
        with (Ascii.eqb w2 LF && Ascii.eqb LF HYPHEN && isword HYPHEN
              && negb (match_pending [w1])).
      now rewrite (word_not_LF _ H2).
    + change (match_pending [w1; HYPHEN; LF; w2; x])
        with (Ascii.eqb x LF && Ascii.eqb w2 HYPHEN && isword LF
              && negb (match_pending [w1; HYPHEN])).
      now rewrite (word_not_hyphen _ H2), andb_false_r.
    + change (match_pending [w1; HYPHEN; LF; w2; x; y])
        with (Ascii.eqb y LF && Ascii.eqb x HYPHEN && isword w2
              && negb (true && true && isword w1 && true)).
      rewrite H1. cbn [andb negb]. now rewrite andb_false_r.
  - change (w1 :: HYPHEN :: LF :: w2 :: p ++ [n3; n2; n1])
      with ((w1 :: HYPHEN :: LF :: w2 :: p) ++ [n3; n2; n1]).
    rewrite !match_pending_snoc3. f_equal. f_equal.
    apply IH. rewrite length_app. simpl. lia.
Qed.

(** Where nothing is pending at the end of [pre], the rule works on [pre]
    and on what follows separately. *)
Lemma sub_hyphen_reached (pre suf : str) :
  word_head suf = true ->
  match_pending pre = false ->
  sub_hyphen (pre ++ suf) = sub_hyphen pre ++ sub_hyphen suf.
Proof.
  intros Hsuf.
  induction pre as [pre IH] using str_length_ind.
  intros Hpre.
  destruct pre as [|c1 pre]; [reflexivity|].
  change ((c1 :: pre) ++ suf) with (c1 :: (pre ++ suf)).
  rewrite !sub_hyphen_eq.
  destruct (hyphen_match (c1 :: pre ++ suf)) as [[[x y] rest]|] eqn:Hm.
  - pose proof (hyphen_match_Some _ Hm) as [Hs [Hx Hy]].
    injection Hs as -> Hs.
    destruct pre as [|c2 [|c3 [|c4 r]]]; cbn [app] in Hs.
    + destruct suf as [|a suf]; [discriminate|].
      injection Hs as -> _. discriminate Hsuf.
    + destruct suf as [|a suf]; [discriminate|].
      injection Hs as -> -> _. discriminate Hsuf.
    + injection Hs as -> -> _.
      change (match_pending [x; HYPHEN; LF])
        with (true && true && isword x && true) in Hpre.
      rewrite Hx in Hpre. discriminate Hpre.
    + injection Hs as -> -> -> <-.
      rewrite hyphen_match_here by assumption. cbn [app]. do 2 f_equal.
      apply IH; [simpl; lia|].
      now rewrite <- (@match_pending_match x y r Hx Hy).
  - assert (Hpre' : match_pending pre = false).
    { now rewrite <- (@match_pending_copy pre suf c1 Hsuf Hm). }
    assert (Hm' : hyphen_match (c1 :: pre) = None).
    { destruct pre as [|c2 [|c3 [|c4 r]]]; try reflexivity.
      cbn [app hyphen_match] in Hm |- *.
      destruct (isword c1 && Ascii.eqb c2 HYPHEN && Ascii.eqb c3 LF
                && isword c4); [discriminate Hm | reflexivity]. }
    rewrite Hm'. cbn [app]. f_equal.
    apply IH; [simpl; lia | exact Hpre'].
Qed.

(** Where a match is pending, it takes the word character that follows, and
    an occurrence that begins with that character keeps its hyphen and its
    newline; so the condition of [sub_hyphen_reached] cannot be dropped. *)
Lemma sub_hyphen_pending (pre post : str) (a b : ascii) :
  isword a = true -> isword b = true ->
  match_pending pre = true ->
  sub_hyphen (pre ++ a :: HYPHEN :: LF :: b :: post)
  = sub_hyphen (pre ++ [a]) ++ HYPHEN :: LF :: sub_hyphen (b :: post).
Proof.
  intros Ha Hb Hpre.
  destruct (last_three pre) as [Hlen | [p [n3 [n2 [n1 ->]]]]].
  { destruct pre as [|x [|y [|z pre]]]; try discriminate Hpre.
    simpl in Hlen. lia. }
  rewrite match_pending_snoc3 in Hpre.
  apply andb_prop in Hpre. destruct Hpre as [Hpre Hp].
  apply andb_prop in Hpre. destruct Hpre as [Hpre H3].
  apply andb_prop in Hpre. destruct Hpre as [H1 H2].
  apply Ascii.eqb_eq in H1, H2. subst n1 n2.
  apply negb_true_iff in Hp.
  rewrite <- !app_assoc. cbn [app].
  rewrite !sub_hyphen_reached by assumption.
  rewrite <- app_assoc. f_equal.
  rewrite (sub_hyphen_eq n3), hyphen_match_here by assumption.
  rewrite (sub_hyphen_eq n3), hyphen_match_here by assumption.
  change (sub_hyphen []) with (@nil ascii). cbn [app]. do 2 f_equal.
  rewrite sub_hyphen_eq, hyphen_match_not_word by reflexivity.
  f_equal.
  rewrite sub_hyphen_eq, hyphen_match_not_word by reflexivity.
  reflexivity.
Qed.

(** C6, amended: scanning from the left, the hyphen rule rewrites every
    occurrence of a word character, hyphen, newline, word character whose
    first character is not the last character of an occurrence it has just
    rewritten, into the two word characters, so "exam-\nple" is normalised
    to "example"; where a character that is no word character follows the
    hyphen and newline, as in "end-\n ", the three are kept. *)
Theorem hyphen_rule_rewrites :
  (forall (pre post : str) (a b : ascii),
      isword a = true -> isword b = true ->
      match_pending pre = false ->
      exists out,
        sub_hyphen (pre ++ a :: HYPHEN :: LF :: b :: post)
        = sub_hyphen pre ++ a :: b :: out)
  /\ _post_process_text (lit "exam-" ++ LF :: lit "ple") = lit "example"
  /\ (forall (pre post : str) (c : ascii),
         isword c = false ->
         sub_hyphen (pre ++ HYPHEN :: LF :: c :: post)
         = sub_hyphen pre ++ HYPHEN :: LF :: c :: sub_hyphen post)
  /\ sub_hyphen (lit "end-" ++ [LF; " "%char]) = lit "end-" ++ [LF; " "%char].
Proof.
  split; [|split; [reflexivity | split; [|reflexivity]]].
  - intros pre post a b Ha Hb Hpre.
    exists (sub_hyphen post).
    rewrite sub_hyphen_reached by assumption.
    f_equal. rewrite sub_hyphen_eq. now rewrite hyphen_match_here.
  - intros pre post c Hc.
    rewrite sub_hyphen_app.
    + f_equal. rewrite sub_hyphen_eq, hyphen_match_not_word by reflexivity.
      f_equal. rewrite sub_hyphen_eq, hyphen_match_not_word by reflexivity.
      f_equal. rewrite sub_hyphen_eq, hyphen_match_not_word by exact Hc.
      reflexivity.
    + intros p q Hq Hne Hlen.
      destruct q as [|c1 [|c2 [|c3 [|c4 q]]]];
        [congruence | | | | simpl in Hlen; lia]; cbn [app hyphen_match].
      * now rewrite Hc, andb_false_r.
      * change (Ascii.eqb HYPHEN LF) with false.
        now rewrite andb_false_r.
      * change (isword HYPHEN) with false.
        now rewrite andb_false_r.
Qed.

Lemma hyphen_rule_rewrites_witness :
  (exists out,
      sub_hyphen ((lit "a-" ++ LF :: lit "b-" ++ [LF])
                  ++ "c"%char :: HYPHEN :: LF :: "d"%char :: [])
      = sub_hyphen (lit "a-" ++ LF :: lit "b-" ++ [LF])
        ++ "c"%char :: "d"%char :: out)
  /\ sub_hyphen (lit "end" ++ HYPHEN :: LF :: " "%char :: lit "x")
     = sub_hyphen (lit "end") ++ HYPHEN :: LF :: " "%char
       :: sub_hyphen (lit "x").
Proof.
  split.
  - apply (proj1 hyphen_rule_rewrites); reflexivity.
  - apply (proj1 (proj2 (proj2 hyphen_rule_rewrites))). reflexivity.
Defined.

(** The output of the normaliser neither begins nor ends with a space
    character. *)
Lemma post_stripped (s : str) :
  leading_space (_post_process_text s) = false
  /\ trailing_space (_post_process_text s) = false.
Proof. split; [apply post_leading | apply post_trailing]. Qed.

(** * Properties of the sort *)

Section SortedFacts.
Variables (A K : Type) (key : A -> K) (lt : K -> K -> bool).

Lemma insert_by_perm (x : A) (l : list A) :
  Permutation (x :: l) (insert_by key lt x l).
Proof.
  induction l as [|y l IH]; simpl; [apply Permutation_refl|].
  destruct (lt (key y) (key x)); [|apply Permutation_refl].
  eapply perm_trans; [apply perm_swap|]. now apply perm_skip.
Qed.

Lemma sorted_perm (l : list A) : Permutation l (sorted key lt l).
Proof.
  induction l as [|x l IH]; simpl; [constructor|].
  eapply perm_trans; [|apply insert_by_perm]. now apply perm_skip.
Qed.

Lemma strict_weak_on_incl (ks ks' : list K) :
  incl ks' ks -> strict_weak_on lt ks -> strict_weak_on lt ks'.
Proof. intros Hi H a b c Ha Hb Hc. apply H; now apply Hi. Qed.

Lemma strict_weak_asym (ks : list K) (a b : K) :
  strict_weak_on lt ks -> In a ks -> In b ks ->
  lt a b = true -> lt b a = false.
Proof.
  intros H Ha Hb Hab.
  destruct (lt b a) eqn:Hba; [|reflexivity].
  destruct (H a b a Ha Hb Ha) as [Hirr [Htr _]].
  rewrite (Htr Hab Hba) in Hirr. discriminate.
Qed.

Lemma strict_weak_neg_trans (ks : list K) (a b c : K) :
  strict_weak_on lt ks -> In a ks -> In b ks -> In c ks ->
  lt a b = false -> lt b c = false -> lt a c = false.
Proof. intros H Ha Hb Hc. now apply (H a b c). Qed.

Lemma insert_by_sorted (x : A) (l : list A) :
  strict_weak_on lt (map key (x :: l)) ->
  StronglySorted (key_le key lt) l ->
  StronglySorted (key_le key lt) (insert_by key lt x l).
Proof.
  induction l as [|y l IH]; intros Hk Hs.
  - repeat constructor.
  - simpl. apply StronglySorted_inv in Hs. destruct Hs as [Hs Hy].
    assert (Hkx : In (key x) (map key (x :: y :: l))) by now left.
    assert (Hky : In (key y) (map key (x :: y :: l)))
      by (right; now left).
    destruct (lt (key y) (key x)) eqn:Hyx.
    + constructor.
      * apply IH; [|exact Hs].
        apply (strict_weak_on_incl (ks := map key (x :: y :: l)));
          [|exact Hk].
        intros k [Hk'|Hk']; [now left | right; now right].
      * apply (Permutation_Forall (insert_by_perm x l)).
        constructor; [|exact Hy].
        exact (strict_weak_asym Hk Hky Hkx Hyx).
    + constructor; [now constructor|].
      constructor; [exact Hyx|].
      rewrite Forall_forall in Hy |- *.
      intros z Hz.
      assert (Hkz : In (key z) (map key (x :: y :: l))).
      { right. right. now apply in_map. }
      exact (strict_weak_neg_trans Hk Hkz Hky Hkx (Hy z Hz) Hyx).
Qed.

Lemma sorted_keys_incl (l : list A) :
  incl (map key (sorted key lt l)) (map key l).
Proof.
  intros k Hk. apply in_map_iff in Hk. destruct Hk as [z [<- Hz]].
  apply in_map.
  exact (Permutation_in z (Permutation_sym (sorted_perm l)) Hz).
Qed.

Lemma sorted_sorted (l : list A) :
  strict_weak_on lt (map key l) ->
  StronglySorted (key_le key lt) (sorted key lt l).
Proof.
  induction l as [|x l IH]; intros Hk; simpl; [constructor|].
  apply insert_by_sorted.
  - apply (strict_weak_on_incl (ks := map key (x :: l))); [|exact Hk].
    intros k [Hk'|Hk']; [now left|].
    right. now apply sorted_keys_incl.
  - apply IH.
    apply (strict_weak_on_incl (ks := map key (x :: l))); [|exact Hk].
    intros k Hk'. now right.
Qed.

(** Stability: the elements whose key ties with [k] keep their order. *)
Lemma insert_by_ties (k : K) (x : A) (l : list A) :
  strict_weak_on lt (k :: map key (x :: l)) ->
  filter (fun t => same_key lt k (key t)) (insert_by key lt x l)
  = filter (fun t => same_key lt k (key t)) (x :: l).
Proof.
  intros Hk.
  induction l as [|y l IH]; [reflexivity|].
  cbn [insert_by].
  destruct (lt (key y) (key x)) eqn:Hyx; [|reflexivity].
  cbn [filter].
  rewrite IH.
  - cbn [filter].
    destruct (same_key lt k (key x)) eqn:Hx; [|reflexivity].
    destruct (same_key lt k (key y)) eqn:Hy; [|reflexivity].
    exfalso.
    unfold same_key in Hx, Hy.
    apply andb_prop in Hx, Hy.
    destruct Hx as [Hx1 Hx2], Hy as [Hy1 Hy2].
    apply negb_true_iff in Hx1, Hx2, Hy1, Hy2.
    assert (Hn : lt (key y) (key x) = false).
    { apply (strict_weak_neg_trans (b := k) Hk); auto.
      - right. right. now left.
      - now left.
      - right. now left. }
    congruence.
  - apply (strict_weak_on_incl (ks := k :: map key (x :: y :: l)));
      [|exact Hk].
    intros k' [Hk'|[Hk'|Hk']];
      [now left | right; now left | right; right; now right].
Qed.

Lemma sorted_ties (k : K) (l : list A) :
  strict_weak_on lt (k :: map key l) ->
  filter (fun t => same_key lt k (key t)) (sorted key lt l)
  = filter (fun t => same_key lt k (key t)) l.
Proof.
  induction l as [|x l IH]; intros Hk; [reflexivity|].
  cbn [sorted].
  rewrite insert_by_ties.
  - cbn [filter]. rewrite IH; [reflexivity|].
    apply (strict_weak_on_incl (ks := k :: map key (x :: l)));
      [|exact Hk].
    intros k' [Hk'|Hk']; [now left | right; now right].
  - apply (strict_weak_on_incl (ks := k :: map key (x :: l)));
      [|exact Hk].
    intros k' [Hk'|[Hk'|Hk']]; [now left | right; now left|].
    right. right. now apply sorted_keys_incl.
Qed.
End SortedFacts.

(** * Properties of the line assembler *)

Lemma span_parts_concat (sps : list Span) :
  concat (span_parts sps) = concat (map span_text sps).
Proof.
  induction sps as [|sp sps IH]; [reflexivity|].
  simpl. destruct (span_text sp) as [|c t]; simpl; [exact IH|].
  now rewrite IH.
Qed.

(** C7: the line assembler puts the spans in ascending order of
    [origin_x], spans with tied origins keeping their order, and
    concatenates their texts with no separator; "World" at 50 and "Hello "
    at 0 give "Hello World".  The origins are to be ordered by [<], as
    floats other than NaN are. *)
Theorem line_assembler_sorts :
  (forall sps : list Span,
      strict_weak_on PrimFloat.ltb (map origin_x sps) ->
      let ordered := sorted origin_x PrimFloat.ltb sps in
      Permutation sps ordered
      /\ StronglySorted (key_le origin_x PrimFloat.ltb) ordered
      /\ (forall s, In s sps ->
            filter (fun t => same_key PrimFloat.ltb (origin_x s) (origin_x t))
              ordered
            = filter
                (fun t => same_key PrimFloat.ltb (origin_x s) (origin_x t))
                sps)
      /\ text_line sps = concat (map span_text ordered))
  /\ text_line spans_hello_world = lit "Hello World".
Proof.
  split; [|reflexivity].
  intros sps Hk ordered.
  split; [apply sorted_perm|].
  split; [apply sorted_sorted; exact Hk|].
  split; [|apply span_parts_concat].
  intros s Hs. apply sorted_ties.
  apply (strict_weak_on_incl (ks := map origin_x sps)); [|exact Hk].
  intros k [<-|Hk']; [now apply in_map | exact Hk'].
Qed.

Lemma line_assembler_sorts_witness :
  let ordered := sorted origin_x PrimFloat.ltb spans_hello_world in
  Permutation spans_hello_world ordered
  /\ StronglySorted (key_le origin_x PrimFloat.ltb) ordered
  /\ (forall s, In s spans_hello_world ->
        filter (fun t => same_key PrimFloat.ltb (origin_x s) (origin_x t))
          ordered
        = filter (fun t => same_key PrimFloat.ltb (origin_x s) (origin_x t))
            spans_hello_world)
  /\ text_line spans_hello_world = concat (map span_text ordered).
Proof.
  apply (proj1 line_assembler_sorts).
  intros a b c Ha Hb Hc.
  simpl in Ha, Hb, Hc.
  destruct Ha as [<-|[<-|[]]], Hb as [<-|[<-|[]]], Hc as [<-|[<-|[]]];
    vm_compute; repeat split; intros; congruence.
Defined.

(** * Properties of the paragraph segmenter *)

Lemma join_snoc (sep : str) (ps : list str) (p : str) :
  ps <> [] -> join sep (ps ++ [p]) = join sep ps ++ sep ++ p.
Proof.
  induction ps as [|a ps IH]; [congruence|].
  intros _. destruct ps as [|b ps]; [reflexivity|].
  change (join sep ((a :: b :: ps) ++ [p]))
    with (a ++ sep ++ join sep ((b :: ps) ++ [p])).
  rewrite IH by discriminate.
  change (join sep (a :: b :: ps)) with (a ++ sep ++ join sep (b :: ps)).
  now rewrite <- !app_assoc.
Qed.

(** After any iteration the loop remembers the line just seen and holds a
    paragraph in progress. *)
Lemma para_step_prev (st : ParaState) (t : CollectedLine) :
  prev_y1 (para_step st t) = Some (cl_y1 t)
  /\ prev_x0 (para_step st t) = Some (cl_x0 t)
  /\ current (para_step st t) <> [].
Proof.
  unfold para_step.
  destruct (prev_y1 st) as [py|].
  - destruct (new_para py (prev_x0 st) t); simpl; repeat split;
      try discriminate.
    now destruct (current st).
  - simpl. repeat split. now destruct (current st).
Qed.

Lemma group_paragraphs_snoc (ls : list CollectedLine) (p l : CollectedLine) :
  exists ps cur,
    group_paragraphs (ls ++ [p]) = ps ++ [cur]
    /\ group_paragraphs (ls ++ [p; l])
       = if starts_paragraph p l then ps ++ [cur; cl_text l]
         else ps ++ [cur ++ LF :: cl_text l].
Proof.
  unfold group_paragraphs.
  change (ls ++ [p; l]) with (ls ++ [p] ++ [l]).
  rewrite app_assoc, (fold_left_app para_step (ls ++ [p]) [l]).
  rewrite (fold_left_app para_step ls [p]).
  cbn [fold_left].
  set (st0 := fold_left para_step ls para_init).
  destruct (para_step_prev st0 p) as [Hy [Hx Hcur]].
  set (st := para_step st0 p) in *.
  exists (paragraphs st), (join [LF] (current st)).
  split.
  - destruct (current st); [congruence | reflexivity].
  - assert (Est : para_step st l
                  = if starts_paragraph p l then
                      {| paragraphs :=
                           paragraphs st ++ [join [LF] (current st)];
                         current := [cl_text l];
                         prev_y1 := Some (cl_y1 l);
                         prev_x0 := Some (cl_x0 l) |}
                    else
                      {| paragraphs := paragraphs st;
                         current := current st ++ [cl_text l];
                         prev_y1 := Some (cl_y1 l);
                         prev_x0 := Some (cl_x0 l) |}).
    { unfold para_step. rewrite Hy, Hx. reflexivity. }
    rewrite Est.
    destruct (starts_paragraph p l); cbn [current paragraphs].
    + now rewrite <- app_assoc.
    + destruct (current st ++ [cl_text l]) eqn:E.
      * now apply app_eq_nil in E.
      * rewrite <- E, join_snoc by exact Hcur. reflexivity.
Qed.

(** C5: the segmenter starts a new paragraph at a line exactly when
    [vgap > 7.0 or (xdelta > 18.0 and vgap > 2.0)] holds of it and the line
    before; otherwise the line joins the paragraph in progress after a
    newline.  Two lines 8.0 apart make two paragraphs; two lines 5.0 apart
    at the same left edge make one. *)
Theorem paragraph_breaks :
  group_paragraphs [] = []
  /\ (forall l, group_paragraphs [l] = [cl_text l])
  /\ (forall ls p l, exists ps cur,
         group_paragraphs (ls ++ [p]) = ps ++ [cur]
         /\ group_paragraphs (ls ++ [p; l])
            = if starts_paragraph p l then ps ++ [cur; cl_text l]
              else ps ++ [cur ++ LF :: cl_text l])
  /\ (PrimFloat.sub (cl_y0 (line_below 8)) (cl_y1 line_above) = 8%float
      /\ group_paragraphs [line_above; line_below 8]
         = [lit "above"; lit "below"])
  /\ (PrimFloat.sub (cl_y0 (line_below 5)) (cl_y1 line_above) = 5%float
      /\ PrimFloat.abs
           (PrimFloat.sub (cl_x0 (line_below 5)) (cl_x0 line_above))
         = 0%float
      /\ group_paragraphs [line_above; line_below 5]
         = [lit "above" ++ LF :: lit "below"]).
Proof.
  split; [reflexivity|].
  split; [reflexivity|].
  split; [exact group_paragraphs_snoc|].
  split; repeat split; reflexivity.
Qed.

(** The thresholds are strict: a gap of exactly 7.0 starts no paragraph. *)
Example paragraph_gap_seven :
  group_paragraphs [line_above; line_below 7]
  = [lit "above" ++ LF :: lit "below"].
Proof. reflexivity. Qed.

(** * Properties of the extraction selector *)

(** C3, as stated: with both structured tiers empty the selector returns
    the plain text as the backend gave it, " x" here, and not its
    normalisation "x". *)
Lemma selector_returns_plain_unnormalised :
  tier1_empty round1_binary64 page_plain_only
  /\ tier2_empty round1_binary64 page_plain_only
  /\ get_text_text page_plain_only = Ok (lit " x")
  /\ _extract_page_text_rawdict round1_binary64 page_plain_only
     = Ok (lit " x")
  /\ _extract_page_text_rawdict round1_binary64 page_plain_only
     <> Ok (_post_process_text (lit " x")).
Proof.
  split; [|split].
  - intros blocks H. injection H as <-. reflexivity.
  - intros blocks H. injection H as <-. reflexivity.
  - split; [reflexivity|]. split; [reflexivity|].
    vm_compute. discriminate.
Qed.

(** C3, amended: when Tier 1 yields no structured result the selector
    returns what the block extractor returns; when Tier 2 yields none
    either, it returns the plain text of the page as the backend gave it,
    and it is the page loop of [parse_pdf] that records its
    normalisation. *)
Theorem selector_falls_back (round1 : float -> float) (page : Page) :
  tier1_empty round1 page ->
  _extract_page_text_rawdict round1 page
  = _extract_page_text_blocks round1 page
  /\ (tier2_empty round1 page ->
      _extract_page_text_rawdict round1 page = get_text_text page
      /\ forall plain page_num acc,
          get_text_text page = Ok plain ->
          extract_pages round1 [Ok page] page_num acc
          = (accumulate acc page_num (_post_process_text plain), None)).
Proof.
  intros H1.
  assert (E1 : _extract_page_text_rawdict round1 page
               = _extract_page_text_blocks round1 page).
  { unfold _extract_page_text_rawdict.
    destruct (get_text_rawdict page) as [blocks|e] eqn:Hr; [|reflexivity].
    cbv zeta. now rewrite (H1 blocks Hr). }
  split; [exact E1|].
  intros H2.
  assert (E2 : _extract_page_text_blocks round1 page = get_text_text page).
  { unfold _extract_page_text_blocks.
    destruct (get_text_blocks page) as [blocks|e] eqn:Hb; [|reflexivity].
    cbv zeta. now rewrite (H2 blocks Hb). }
  split; [now rewrite E1|].
  intros plain page_num acc Hp.
  cbn [extract_pages bind]. now rewrite E1, E2, Hp.
Qed.

Lemma selector_falls_back_witness :
  _extract_page_text_rawdict round1_binary64 page_plain_only
  = _extract_page_text_blocks round1_binary64 page_plain_only
  /\ (tier2_empty round1_binary64 page_plain_only ->
      _extract_page_text_rawdict round1_binary64 page_plain_only
      = get_text_text page_plain_only
      /\ forall plain page_num acc,
          get_text_text page_plain_only = Ok plain ->
          extract_pages round1_binary64 [Ok page_plain_only] page_num acc
          = (accumulate acc page_num (_post_process_text plain), None)).
Proof.
  apply selector_falls_back.
  intros blocks H. injection H as <-. reflexivity.
Defined.

(** The block extractor returns a string whenever the plain-text query
    does, and raises nothing but what that query raises. *)
Lemma blocks_extractor_returns (round1 : float -> float) (page : Page) :
  (forall plain,
      get_text_text page = Ok plain ->
      exists s, _extract_page_text_blocks round1 page = Ok s)
  /\ (forall e,
         _extract_page_text_blocks round1 page = Raise e ->
         get_text_text page = Raise e).
Proof.
  unfold _extract_page_text_blocks.
  destruct (get_text_blocks page) as [blocks|e'].
  - cbv zeta. destruct (is_empty _).
    + split; [intros plain ->; eauto | auto].
    + split; [eauto | discriminate].
  - split; [intros plain ->; eauto | auto].
Qed.

(** * Properties of the endpoints *)

Lemma accumulate_in_step (acc : Accum) (page_num : nat) (t : str) :
  in_step acc -> in_step (accumulate acc page_num t).
Proof.
  unfold in_step, newline_terminated. intros H. cbn [accumulate full_text pages_data].
  rewrite map_app, concat_app, H. cbn [map concat page_text].
  now rewrite app_nil_r.
Qed.

Lemma extract_pages_in_step (round1 : float -> float)
  (todo : list (result Page)) (page_num : nat) (acc : Accum) :
  in_step acc -> in_step (fst (extract_pages round1 todo page_num acc)).
Proof.
  revert page_num acc.
  induction todo as [|loaded todo IH]; intros page_num acc H; [exact H|].
  cbn [extract_pages].
  destruct (bind loaded _) as [ptext|e]; [|exact H].
  apply IH. now apply accumulate_in_step.
Qed.

Lemma extract_pages_plain_in_step (todo : list (result Page))
  (page_num : nat) (acc : Accum) :
  in_step acc -> in_step (fst (extract_pages_plain todo page_num acc)).
Proof.
  revert page_num acc.
  induction todo as [|loaded todo IH]; intros page_num acc H; [exact H|].
  cbn [extract_pages_plain].
  destruct (bind loaded _) as [ptext|e]; [|exact H].
  apply IH. now apply accumulate_in_step.
Qed.

Lemma first_attempt_in_step (round1 : float -> float) (file : UploadFile)
  (acc : Accum) :
  in_step acc -> in_step (fst (first_attempt round1 file acc)).
Proof.
  intros H. unfold first_attempt.
  destruct (fitz_open file) as [doc|e]; [|exact H].
  destruct (still_needs_pass doc); [exact H|].
  pose proof (extract_pages_in_step round1 (load_page doc) 0 H) as H'.
  destruct (extract_pages round1 (load_page doc) 0 acc) as [acc' [e|]];
    exact H'.
Qed.

Lemma retry_attempt_in_step (file : UploadFile) (acc : Accum) :
  in_step acc -> in_step (fst (retry_attempt file acc)).
Proof.
  intros H. unfold retry_attempt.
  destruct (fitz_open_retry file) as [doc|e]; [|exact H].
  pose proof (extract_pages_plain_in_step (load_page doc) 0 H) as H'.
  destruct (extract_pages_plain (load_page doc) 0 acc) as [acc' [e|]];
    exact H'.
Qed.

(** What a successful [parse_pdf] returns: the accumulators as the attempt
    that completed left them. *)
Lemma parse_pdf_Ok (round1 : float -> float) (file : UploadFile)
  (r : PDFParseResponse) :
  parse_pdf round1 file = Ok r ->
  exists acc,
    in_step acc
    /\ text r = _post_process_text (full_text acc)
    /\ pages r = pages_data acc
    /\ (first_attempt round1 file acc0
        = (acc, Ok (md_page_count (metadata r)))
        \/ exists acc1,
            first_attempt round1 file acc0 = (acc1, Raise RuntimeError)
            /\ retry_attempt file acc1
               = (acc, Ok (md_page_count (metadata r)))).
Proof.
  unfold parse_pdf. fold acc0.
  destruct (negb (is_pdf (content_type file))); [discriminate|].
  pose proof (@first_attempt_in_step round1 file acc0 eq_refl) as H1.
  destruct (first_attempt round1 file acc0) as [acc1 r1].
  cbn [fst] in H1.
  destruct r1 as [n|e].
  - intros H. injection H as <-. exists acc1. cbn. auto.
  - destruct e; cbn [is_RuntimeError]; try discriminate.
    pose proof (@retry_attempt_in_step file acc1 H1) as H2.
    destruct (retry_attempt file acc1) as [acc2 r2] eqn:E2.
    cbn [fst] in H2.
    destruct r2 as [n|e]; [|discriminate].
    intros H. injection H as <-. exists acc2. cbn.
    repeat split; auto. right. exists acc1. auto.
Qed.

(** The page loop of the first attempt, when it completes: one record per
    page, in page order, numbered from the index it starts at. *)
Lemma extract_pages_done (round1 : float -> float)
  (todo : list (result Page)) (page_num : nat) (acc acc' : Accum) :
  extract_pages round1 todo page_num acc = (acc', None) ->
  exists ps,
    pages_data acc' = pages_data acc ++ ps
    /\ Forall2 (records_normalised round1) todo ps
    /\ map page_number ps = seq (page_num + 1) (length todo).
Proof.
  revert page_num acc.
  induction todo as [|loaded todo IH]; intros page_num acc.
  - cbn. intros H. injection H as <-. exists [].
    rewrite app_nil_r. repeat split. constructor.
  - cbn [extract_pages].
    destruct loaded as [page|e]; cbn [bind]; [|discriminate].
    destruct (_extract_page_text_rawdict round1 page) as [t|e] eqn:Ht;
      [|discriminate].
    intros H. apply IH in H. destruct H as [ps [Hps [Hall Hnum]]].
    exists ({| page_number := page_num + 1;
               page_text := _post_process_text t |} :: ps).
    split; [|split].
    + rewrite Hps. cbn [accumulate pages_data]. now rewrite <- app_assoc.
    + constructor; [|exact Hall]. exists page, t. auto.
    + cbn [map page_number length seq]. f_equal.
      rewrite Hnum. reflexivity.
Qed.

Lemma extract_pages_plain_done (todo : list (result Page))
  (page_num : nat) (acc acc' : Accum) :
  extract_pages_plain todo page_num acc = (acc', None) ->
  exists ps,
    pages_data acc' = pages_data acc ++ ps
    /\ Forall2 records_plain todo ps
    /\ map page_number ps = seq (page_num + 1) (length todo).
Proof.
  revert page_num acc.
  induction todo as [|loaded todo IH]; intros page_num acc.
  - cbn. intros H. injection H as <-. exists [].
    rewrite app_nil_r. repeat split. constructor.
  - cbn [extract_pages_plain].
    destruct loaded as [page|e]; cbn [bind]; [|discriminate].
    destruct (get_text_text page) as [t|e] eqn:Ht; [|discriminate].
    intros H. apply IH in H. destruct H as [ps [Hps [Hall Hnum]]].
    exists ({| page_number := page_num + 1;
               page_text := strip (remove_nul t) |} :: ps).
    split; [|split].
    + rewrite Hps. cbn [accumulate pages_data]. now rewrite <- app_assoc.
    + constructor; [|exact Hall]. exists page, t. auto.
    + cbn [map page_number length seq]. f_equal.
      rewrite Hnum. reflexivity.
Qed.

Lemma first_attempt_done (round1 : float -> float) (file : UploadFile)
  (acc : Accum) (n : nat) :
  first_attempt round1 file acc0 = (acc, Ok n) ->
  exists doc,
    fitz_open file = Ok doc
    /\ n = page_count doc
    /\ Forall2 (records_normalised round1) (load_page doc) (pages_data acc)
    /\ map page_number (pages_data acc) = seq 1 n.
Proof.
  unfold first_attempt.
  destruct (fitz_open file) as [doc|e]; [|discriminate].
  destruct (still_needs_pass doc); [discriminate|].
  destruct (extract_pages round1 (load_page doc) 0 acc0) as [acc' [e|]] eqn:E;
    [discriminate|].
  intros H. injection H as <- <-.
  apply extract_pages_done in E. destruct E as [ps [Hps [Hall Hnum]]].
  cbn in Hps. subst ps.
  exists doc. repeat split; auto.
Qed.

(** The retry, entered with nothing recorded yet. *)
Lemma retry_attempt_done (file : UploadFile) (acc : Accum) (n : nat) :
  retry_attempt file acc0 = (acc, Ok n) ->
  exists doc,
    fitz_open_retry file = Ok doc
    /\ n = page_count doc
    /\ Forall2 records_plain (load_page doc) (pages_data acc)
    /\ map page_number (pages_data acc) = seq 1 n.
Proof.
  unfold retry_attempt.
  destruct (fitz_open_retry file) as [doc|e]; [|discriminate].
  destruct (extract_pages_plain (load_page doc) 0 acc0) as [acc' [e|]] eqn:E;
    [discriminate|].
  intros H. injection H as <- <-.
  apply extract_pages_plain_done in E. destruct E as [ps [Hps [Hall Hnum]]].
  cbn in Hps. subst ps.
  exists doc. repeat split; auto.
Qed.

(** The full text that [parse_pdf] returns is the normaliser applied to
    the texts of the returned pages, in their order, each followed by one
    newline; and when the first attempt completes, those pages are the
    pages of the document in page order, each with the normalised output of
    the selector. *)
Lemma returned_text_joins_returned_pages (round1 : float -> float)
  (file : UploadFile) (r : PDFParseResponse) :
  parse_pdf round1 file = Ok r ->
  text r = _post_process_text (newline_terminated (pages r))
  /\ (forall acc n,
         first_attempt round1 file acc0 = (acc, Ok n) ->
         exists doc,
           fitz_open file = Ok doc
           /\ Forall2 (records_normalised round1) (load_page doc) (pages r)).
Proof.
  intros H. apply parse_pdf_Ok in H.
  destruct H as [acc [Hstep [Htext [Hpages Hpath]]]].
  split.
  - now rewrite Htext, Hpages, Hstep.
  - intros acc' n H1.
    destruct Hpath as [Hfirst | [acc1 [Hfirst _]]];
      [|rewrite Hfirst in H1; discriminate].
    rewrite Hfirst in H1. injection H1 as <- <-.
    apply first_attempt_done in Hfirst.
    destruct Hfirst as [doc [Hopen [_ [Hall _]]]].
    exists doc. now rewrite Hpages.
Qed.

(** C1, at the failing input: [fitz.open] raises a [RuntimeError] and the
    reopened document has one page, whose plain text is "a-\nb-\nc".  The
    retry records the page with both hyphenated line breaks, where the
    first attempt records the normalised "ab-\nc" for the same page; the
    full text returned is "ab-\nc", and not "abc", the normaliser applied
    to the normalised page and a newline, which the first attempt returns.
    And where the first attempt stops after page 1 of two pages, the full
    text returned holds page 1 twice. *)
Theorem retry_records_unnormalised_pages :
  fitz_open upload_reopened_chained = Raise RuntimeError
  /\ fitz_open_retry upload_reopened_chained
     = Ok (open_document [Ok (plain_page chained_breaks)])
  /\ _post_process_text chained_breaks = lit "ab-" ++ LF :: lit "c"
  /\ _post_process_text (_post_process_text chained_breaks ++ [LF])
     = lit "abc"
  /\ (exists r,
         parse_pdf round1_binary64 upload_reopened_chained = Ok r
         /\ map page_text (pages r) = [chained_breaks]
         /\ text r = lit "ab-" ++ LF :: lit "c"
         /\ text r
            <> _post_process_text (_post_process_text chained_breaks ++ [LF]))
  /\ (exists r,
         parse_pdf round1_binary64 upload_chained = Ok r
         /\ map page_text (pages r) = [lit "ab-" ++ LF :: lit "c"]
         /\ text r = lit "abc")
  /\ (exists r,
         parse_pdf round1_binary64 upload_interrupted = Ok r
         /\ text r = lit "one" ++ LF :: lit "one" ++ LF :: lit "two").
Proof.
  split; [reflexivity|]. split; [reflexivity|].
  split; [reflexivity|]. split; [reflexivity|].
  split; [|split]; eexists; (split; [vm_compute; reflexivity|]).
  - split; [reflexivity|]. split; [reflexivity | discriminate].
  - split; reflexivity.
  - reflexivity.
Qed.

(** When every [RuntimeError] of the first attempt comes before a page is
    recorded, the pages returned are numbered 1, 2, ... in order. *)
Lemma page_numbers_in_order (round1 : float -> float) (file : UploadFile)
  (r : PDFParseResponse) :
  parse_pdf round1 file = Ok r ->
  (forall acc, first_attempt round1 file acc0 = (acc, Raise RuntimeError) ->
               pages_data acc = []) ->
  map page_number (pages r) = seq 1 (length (pages r)).
Proof.
  intros H Hclean. apply parse_pdf_Ok in H.
  destruct H as [acc [Hstep [_ [Hpages Hpath]]]].
  assert (Hn : exists n, map page_number (pages_data acc) = seq 1 n).
  { destruct Hpath as [Hfirst | [acc1 [Hfirst Hretry]]].
    - apply first_attempt_done in Hfirst.
      destruct Hfirst as [doc [_ [_ [_ Hnum]]]]. eauto.
    - pose proof (Hclean acc1 Hfirst) as Hnil.
      pose proof (@first_attempt_in_step round1 file acc0 eq_refl) as H1.
      rewrite Hfirst in H1. cbn [fst] in H1.
      unfold in_step in H1. rewrite Hnil in H1.
      assert (acc1 = acc0) as ->.
      { destruct acc1 as [pd ft]. cbn in Hnil, H1. now subst. }
      apply retry_attempt_done in Hretry.
      destruct Hretry as [doc [_ [_ [_ Hnum]]]]. eauto. }
  destruct Hn as [n Hn].
  rewrite Hpages, Hn.
  apply (f_equal (@length nat)) in Hn.
  rewrite length_map, length_seq in Hn. now rewrite Hn.
Qed.

(** C2, at the failing input: the first attempt records page 1 and stops on
    a [RuntimeError] at page 2; the retry appends both pages to what is
    already recorded, and the pages returned are numbered 1, 1, 2. *)
Theorem retry_repeats_recorded_pages :
  exists r,
    parse_pdf round1_binary64 upload_interrupted = Ok r
    /\ map page_number (pages r) = [1; 1; 2]
    /\ map page_text (pages r) = [lit "one"; lit "one"; lit "two"]
    /\ md_page_count (metadata r) = 2.
Proof. eexists. split; [vm_compute; reflexivity|]. repeat split. Qed.

(** The retry of [parse_pdf] reads the plain text of every page and nothing
    else. *)
Lemma parse_pdf_retry_is_plain (round1 : float -> float) (file : UploadFile)
  (r : PDFParseResponse) :
  fitz_open file = Raise RuntimeError ->
  parse_pdf round1 file = Ok r ->
  exists doc,
    fitz_open_retry file = Ok doc
    /\ Forall2 records_plain (load_page doc) (pages r)
    /\ map page_number (pages r) = seq 1 (page_count doc).
Proof.
  intros Hopen H. apply parse_pdf_Ok in H.
  destruct H as [acc [_ [_ [Hpages Hpath]]]].
  unfold first_attempt in Hpath. rewrite Hopen in Hpath.
  destruct Hpath as [Hfirst | [acc1 [Hfirst Hretry]]]; [discriminate|].
  injection Hfirst as <-.
  apply retry_attempt_done in Hretry.
  destruct Hretry as [doc [Hre [Hn [Hall Hnum]]]].
  exists doc. rewrite Hpages. rewrite Hn in Hnum. repeat split; assumption.
Qed.

(** The page loop of [parse_pdf_text_only], when it completes: the output
    of the selector on every page, each followed by one newline. *)
Lemma extract_text_only_done (round1 : float -> float)
  (todo : list (result Page)) (full full' : str) :
  extract_text_only round1 todo full = Ok full' ->
  exists ts,
    Forall2 (selected round1) todo ts
    /\ full' = full ++ concat (map (fun t => t ++ [LF]) ts).
Proof.
  revert full.
  induction todo as [|loaded todo IH]; intros full.
  - cbn. intros H. injection H as <-. exists [].
    split; [constructor | now rewrite app_nil_r].
  - cbn [extract_text_only].
    destruct loaded as [page|e]; cbn [bind]; [|discriminate].
    destruct (_extract_page_text_rawdict round1 page) as [t|e] eqn:Ht;
      cbn [bind]; [|discriminate].
    intros H. apply IH in H. destruct H as [ts [Hall ->]].
    exists (t :: ts). split.
    + constructor; [now exists page | exact Hall].
    + cbn [map concat]. now rewrite <- !app_assoc.
Qed.

(** C8, at the failing input: [fitz.open] raises a [RuntimeError] and the
    reopened document has one page, whose spans read "rich" and whose plain
    text reads "plain".  The retry of [parse_pdf] returns the plain text;
    the retry of [parse_pdf_text_only] runs Tier 1 and returns its text. *)
Theorem text_only_retry_runs_all_tiers :
  fitz_open upload_reopened = Raise RuntimeError
  /\ fitz_open_retry upload_reopened = Ok (open_document [Ok rich_page])
  /\ get_text_text rich_page = Ok (lit "plain")
  /\ (exists r,
         parse_pdf round1_binary64 upload_reopened = Ok r
         /\ text r = lit "plain")
  /\ (exists r,
         parse_pdf_text_only round1_binary64 upload_reopened = Ok r
         /\ to_text r = lit "rich"
         /\ to_text r <> lit "plain").
Proof.
  split; [reflexivity|]. split; [reflexivity|]. split; [reflexivity|].
  split; eexists; (split; [vm_compute; reflexivity|]).
  - reflexivity.
  - split; [reflexivity | discriminate].
Qed.

(** What the retry of either endpoint reads: the document is opened once
    more; if that raises, the endpoint fails; otherwise [parse_pdf]
    records the plain text of every page, and [parse_pdf_text_only] the
    output of the selector. *)
Lemma retries_read_reopened_document (round1 : float -> float)
  (file : UploadFile) :
  fitz_open file = Raise RuntimeError ->
  (forall r,
      parse_pdf round1 file = Ok r ->
      exists doc,
        fitz_open_retry file = Ok doc
        /\ Forall2 records_plain (load_page doc) (pages r))
  /\ (forall r,
         parse_pdf_text_only round1 file = Ok r ->
         exists doc ts,
           fitz_open_retry file = Ok doc
           /\ Forall2 (selected round1) (load_page doc) ts
           /\ to_text r
              = _post_process_text (concat (map (fun t => t ++ [LF]) ts)))
  /\ (forall e,
         fitz_open_retry file = Raise e ->
         parse_pdf round1 file = Raise HTTPException
         /\ parse_pdf_text_only round1 file = Raise HTTPException).
Proof.
  intros Hopen. split; [|split].
  - intros r H.
    destruct (parse_pdf_retry_is_plain round1 file Hopen H)
      as [doc [Hre [Hall _]]].
    now exists doc.
  - intros r. unfold parse_pdf_text_only.
    destruct (negb (is_pdf (content_type file))); [discriminate|].
    rewrite Hopen. cbn [bind is_RuntimeError].
    destruct (fitz_open_retry file) as [doc|e]; cbn [bind]; [|discriminate].
    destruct (extract_text_only round1 (load_page doc) []) as [full|e] eqn:E;
      cbn [bind]; [|discriminate].
    intros H. injection H as <-.
    apply extract_text_only_done in E. destruct E as [ts [Hall ->]].
    exists doc, ts. auto.
  - intros e Hre. unfold parse_pdf, parse_pdf_text_only, first_attempt,
      retry_attempt.
    rewrite Hopen, Hre. cbn [bind is_RuntimeError].
    now destruct (negb (is_pdf (content_type file))).
Qed.

Lemma parse_pdf_text_only_Ok (round1 : float -> float) (file : UploadFile)
  (r : TextOnlyResponse) :
  parse_pdf_text_only round1 file = Ok r ->
  exists full, to_text r = _post_process_text full.
Proof.
  unfold parse_pdf_text_only.
  destruct (negb (is_pdf (content_type file))); [discriminate|].
  cbv zeta.
  match goal with
  | |- match ?o with Ok _ => _ | Raise _ => _ end = _ -> _ =>
      destruct o as [[full n]|e]; [|discriminate]
  end.
  intros H. injection H as <-. now exists full.
Qed.

(** C10: the output of the normaliser neither begins nor ends with a space
    character; so the full text that either endpoint returns does not end
    with the newline appended after the last page. *)
Theorem full_text_has_no_trailing_newline :
  (forall s,
      leading_space (_post_process_text s) = false
      /\ trailing_space (_post_process_text s) = false)
  /\ (forall round1 file r,
         parse_pdf round1 file = Ok r -> forall u, text r <> u ++ [LF])
  /\ (forall round1 file r,
         parse_pdf_text_only round1 file = Ok r ->
         forall u, to_text r <> u ++ [LF]).
Proof.
  split; [exact post_stripped|].
  split.
  - intros round1 file r H u. apply parse_pdf_Ok in H.
    destruct H as [acc [_ [-> _]]].
    apply not_trailing_LF, post_trailing.
  - intros round1 file r H u. apply parse_pdf_text_only_Ok in H.
    destruct H as [full ->].
    apply not_trailing_LF, post_trailing.
Qed.

Lemma full_text_has_no_trailing_newline_witness :
  (forall u, text response_plain <> u ++ [LF])
  /\ (forall u, to_text response_text_only <> u ++ [LF]).
Proof.
  split.
  - apply (proj1 (proj2 full_text_has_no_trailing_newline)
             round1_binary64 upload_plain).
    vm_compute. reflexivity.
  - apply (proj2 (proj2 full_text_has_no_trailing_newline)
             round1_binary64 upload_plain).
    vm_compute. reflexivity.
Defined.

(** * Further properties of the text normaliser *)

Lemma subseq_refl (s : str) : subseq s s.
Proof. induction s; constructor; assumption. Qed.

Lemma subseq_trans (a b c : str) : subseq a b -> subseq b c -> subseq a c.
Proof.
  intros Hab Hbc. revert a Hab.
  induction Hbc as [|x b c Hbc IH|x b c Hbc IH]; intros a Hab.
  - exact Hab.
  - inversion Hab; subst.
    + apply subseq_keep. now apply IH.
    + apply subseq_drop. now apply IH.
  - apply subseq_drop. now apply IH.
Qed.

Lemma subseq_skip (w t s : str) : subseq t s -> subseq t (w ++ s).
Proof. intros H. induction w; [exact H | now apply subseq_drop]. Qed.

Lemma subseq_app (a b c d : str) :
  subseq a b -> subseq c d -> subseq (a ++ c) (b ++ d).
Proof.
  intros Hab Hcd.
  induction Hab; cbn [app]; [exact Hcd | |];
    constructor; assumption.
Qed.

Lemma subseq_empty (s : str) : subseq [] s.
Proof. induction s; constructor; assumption. Qed.

Lemma subseq_length (t s : str) : subseq t s -> length t <= length s.
Proof. induction 1; simpl; lia. Qed.

Lemma subseq_In (t s : str) (c : ascii) : subseq t s -> In c t -> In c s.
Proof.
  induction 1 as [|x t s H IH|x t s H IH]; intros Hc.
  - exact Hc.
  - destruct Hc as [->|Hc]; [now left | right; auto].
  - right. auto.
Qed.

Lemma remove_nul_subseq (s : str) : subseq (remove_nul s) s.
Proof.
  induction s as [|c s IH]; [constructor|].
  unfold remove_nul. cbn [filter].
  destruct (negb (Ascii.eqb c NUL)); constructor; exact IH.
Qed.

Lemma sub_hyphen_subseq (s : str) : subseq (sub_hyphen s) s.
Proof.
  induction s as [s IH] using str_length_ind.
  destruct s as [|a s]; [constructor|].
  rewrite sub_hyphen_eq.
  destruct (hyphen_match (a :: s)) as [[[x y] rest]|] eqn:Hm.
  - apply hyphen_match_Some in Hm. destruct Hm as [Hs _].
    rewrite Hs. do 4 constructor.
    apply IH. rewrite Hs. simpl. lia.
  - constructor. apply IH. simpl. lia.
Qed.

Lemma sub_url_subseq (s : str) : subseq (sub_url s) s.
Proof.
  induction s as [s IH] using str_length_ind.
  destruct s as [|c s]; [constructor|].
  rewrite sub_url_eq.
  destruct (url_match (c :: s)) as [rest|] eqn:Hm.
  - pose proof (url_match_shorter _ Hm) as Hlen.
    apply url_match_Some in Hm. destruct Hm as [ws [Hs _]].
    rewrite Hs.
    change (lit "https://" ++ sub_url rest)
      with (lit "https:/" ++ SLASH :: sub_url rest).
    apply subseq_app; [apply subseq_refl|].
    apply subseq_skip. constructor. now apply IH.
  - constructor. apply IH. simpl. lia.
Qed.

Lemma strip_subseq (s : str) : subseq (strip s) s.
Proof.
  destruct (lstrip_split s) as [w [Hw _]].
  destruct (rstrip_split (lstrip s)) as [v [Hv _]].
  apply subseq_trans with (b := lstrip s).
  - unfold strip. rewrite Hv at 2.
    rewrite <- (app_nil_r (rstrip (lstrip s))) at 1.
    apply subseq_app; [apply subseq_refl | apply subseq_empty].
  - rewrite Hw at 2. apply subseq_skip, subseq_refl.
Qed.

(** X1: the normaliser only deletes characters: its output is its input with
    some characters left out, so it is no longer than the input and holds
    no character the input does not hold. *)
Theorem normaliser_only_deletes (s : str) :
  subseq (_post_process_text s) s
  /\ length (_post_process_text s) <= length s
  /\ (forall c, In c (_post_process_text s) -> In c s).
Proof.
  assert (H : subseq (_post_process_text s) s).
  { destruct s as [|c s]; [constructor|].
    cbn [_post_process_text].
    eapply subseq_trans; [apply strip_subseq|].
    eapply subseq_trans; [apply sub_hyphen_subseq|].
    eapply subseq_trans; [apply sub_url_subseq|].
    apply remove_nul_subseq. }
  split; [exact H|]. split.
  - now apply subseq_length.
  - intros c. now apply subseq_In.
Qed.

(** X2: the URL rule changes a text exactly when the text holds "https:/", at
    least one space character, and a slash in a row. *)
Theorem url_rule_changes_iff (s : str) :
  sub_url s <> s <-> split_url_in s.
Proof.
  split.
  - intros Hne.
    destruct (sub_url_length_or_fixed s) as [Hlt|Heq]; [|contradiction].
    (* a shorter output: some match had spaces in it *)
    clear Hne. revert Hlt.
    induction s as [s IH] using str_length_ind.
    destruct s as [|c s]; [simpl; lia|].
    rewrite sub_url_eq.
    destruct (url_match (c :: s)) as [rest|] eqn:Hm.
    + pose proof (url_match_shorter _ Hm) as Hlen.
      apply url_match_Some in Hm. destruct Hm as [ws [Hs Hsp]].
      destruct ws as [|w ws].
      * rewrite Hs. change (lit "https:/" ++ [] ++ SLASH :: rest)
          with (lit "https://" ++ rest).
        rewrite !length_app. intros Hlt.
        destruct (IH rest Hlen) as [pre [ws [post [Hws [Hall Hr]]]]];
          [lia|].
        exists (lit "https://" ++ pre), ws, post.
        repeat split; auto. rewrite Hr. now rewrite <- app_assoc.
      * intros _. exists [], (w :: ws), rest.
        repeat split; auto. discriminate.
    + cbn [length]. intros Hlt.
      destruct (IH s (Nat.lt_succ_diag_r _)) as [pre [ws [post [Hws [Hall Hr]]]]];
        [lia|].
      exists (c :: pre), ws, post. subst s. auto.
  - intros Hsplit Heq. apply sub_url_shrinks in Hsplit.
    rewrite Heq in Hsplit. lia.
Qed.

(** X3: the hyphen rule changes a text exactly when the text holds a word
    character, a hyphen, a newline and a word character in a row. *)
Theorem hyphen_rule_changes_iff (s : str) :
  sub_hyphen s <> s <-> hyphen_break_in s.
Proof.
  split.
  - intros Hne.
    induction s as [|a s IH]; [now elim Hne|].
    rewrite sub_hyphen_eq in Hne.
    destruct (hyphen_match (a :: s)) as [[[x y] rest]|] eqn:Hm.
    + apply hyphen_match_Some in Hm. destruct Hm as [Hs [Hx Hy]].
      exists [], x, y, rest. auto.
    + destruct IH as [pre [x [y [post [Hx [Hy Hs]]]]]].
      { intros Heq. apply Hne. now rewrite Heq. }
      exists (a :: pre), x, y, post. subst s. auto.
  - intros Hbreak Heq. apply sub_hyphen_shrinks in Hbreak.
    rewrite Heq in Hbreak. lia.
Qed.

(** *** What the URL rule leaves behind *)

Lemma url_match_starts_h (s rest : str) :
  url_match s = Some rest -> exists s', s = "h"%char :: s'.
Proof.
  intros H. apply url_match_Some in H. destruct H as [ws [-> _]].
  eexists. reflexivity.
Qed.

(** Where the output does not begin with "h", the rule has copied the first
    character. *)
Lemma sub_url_head (s out : str) (d : ascii) :
  sub_url s = d :: out -> d <> "h"%char ->
  exists s', s = d :: s' /\ sub_url s' = out.
Proof.
  destruct s as [|c s]; [discriminate|].
  rewrite sub_url_eq.
  destruct (url_match (c :: s)) as [rest|] eqn:Hm.
  - intros H Hd. exfalso. apply Hd.
    change (lit "https://" ++ sub_url rest)
      with ("h"%char :: lit "ttps://" ++ sub_url rest) in H.
    now injection H.
  - intros H _. injection H as -> <-. now exists s.
Qed.

Lemma sub_url_spaces (ws s out : str) :
  Forall (fun c => isspace c = true) ws ->
  sub_url s = ws ++ SLASH :: out ->
  exists s', s = ws ++ SLASH :: s'.
Proof.
  intros Hws. revert s.
  induction Hws as [|w ws Hw _ IH]; intros s H.
  - apply sub_url_head in H; [|discriminate].
    destruct H as [s' [-> _]]. now exists s'.
  - cbn [app] in H. apply sub_url_head in H.
    + destruct H as [s' [-> H]]. apply IH in H.
      destruct H as [s'' ->]. now exists s''.
    + intros ->. discriminate Hw.
Qed.

Lemma sub_url_repaired (s : str) : ~ split_url_in (sub_url s).
Proof.
  induction s as [s IH] using str_length_ind.
  destruct s as [|c s].
  { intros [pre [ws [post [_ [_ H]]]]]. now destruct pre. }
  rewrite sub_url_eq.
  destruct (url_match (c :: s)) as [rest|] eqn:Hm.
  - intros H. apply split_url_after_whole in H.
    exact (IH rest (url_match_shorter _ Hm) H).
  - intros [pre [ws [post [Hws [Hsp H]]]]].
    destruct pre as [|p pre].
    + unfold lit in H. cbn [list_ascii_of_string app] in H.
      injection H as -> H.
      do 6 (apply sub_url_head in H; [|discriminate];
            destruct H as [? [-> H]]).
      apply sub_url_spaces in H; [|exact Hsp]. destruct H as [s' ->].
      change ("h" :: "t" :: "t" :: "p" :: "s" :: ":" :: "/"
              :: ws ++ SLASH :: s')%char
        with (lit "https:/" ++ ws ++ SLASH :: s') in Hm.
      rewrite url_match_here in Hm by exact Hsp. discriminate.
    + cbn [app] in H. injection H as -> H.
      apply (IH s (Nat.lt_succ_diag_r _)).
      now exists pre, ws, post.
Qed.

(** X4: one pass of the URL rule repairs every split address: its output holds
    no "https:/", space characters, slash in a row any more, and a second
    pass changes nothing. *)
Theorem url_rule_is_idempotent (s : str) :
  ~ split_url_in (sub_url s) /\ sub_url (sub_url s) = sub_url s.
Proof.
  split; [apply sub_url_repaired|].
  apply sub_url_fixed, sub_url_repaired.
Qed.

(** *** The URL rule across a cut *)

Lemma app_split_notin (A pre suf r : str) (x : ascii) :
  ~ In x A -> pre ++ x :: suf = A ++ r ->
  exists r1, pre = A ++ r1 /\ r = r1 ++ x :: suf.
Proof.
  revert pre.
  induction A as [|a A IH]; intros pre Hx H.
  - now exists pre.
  - destruct pre as [|p pre]; cbn [app] in H; injection H as -> H.
    + exfalso. apply Hx. now left.
    + destruct (IH pre) as [r1 [-> ->]]; [|exact H|].
      * intros Hin. apply Hx. now right.
      * now exists r1.
Qed.

(** Before a text that begins with "h", a match of the pattern ends where it
    ends in the text before it alone. *)
Lemma url_match_before_h (pre suf : str) :
  pre <> [] ->
  url_match (pre ++ "h"%char :: suf)
  = option_map (fun rest => rest ++ "h"%char :: suf) (url_match pre).
Proof.
  intros Hpre.
  destruct (url_match pre) as [rest|] eqn:Hm; cbn [option_map].
  - apply url_match_Some in Hm. destruct Hm as [ws [-> Hsp]].
    rewrite <- !app_assoc. cbn [app].
    change (lit "https:/" ++ ws ++ SLASH :: rest ++ "h"%char :: suf)
      with (lit "https:/" ++ ws ++ SLASH :: (rest ++ "h"%char :: suf)).
    now apply url_match_here.
  - destruct (url_match (pre ++ "h"%char :: suf)) as [r|] eqn:Hm';
      [|reflexivity].
    exfalso.
    apply url_match_Some in Hm'. destruct Hm' as [ws [H Hsp]].
    destruct pre as [|p pre]; [congruence|].
    unfold lit in H. cbn [list_ascii_of_string app] in H.
    injection H as -> H.
    assert (H' : pre ++ "h"%char :: suf
                 = (lit "ttps:/" ++ ws ++ [SLASH]) ++ r).
    { rewrite H. unfold lit. cbn [list_ascii_of_string app].
      now rewrite <- app_assoc. }
    apply app_split_notin in H'.
    + destruct H' as [r1 [-> _]].
      change ("h"%char :: (lit "ttps:/" ++ ws ++ [SLASH]) ++ r1)
        with (lit "https:/" ++ (ws ++ [SLASH]) ++ r1) in Hm.
      rewrite <- app_assoc in Hm. cbn [app] in Hm.
      rewrite url_match_here in Hm by exact Hsp. discriminate.
    + intros Hin. apply in_app_or in Hin. destruct Hin as [Hin|Hin].
      * vm_compute in Hin. intuition discriminate.
      * apply in_app_or in Hin. destruct Hin as [Hin|[Hin|[]]].
        -- rewrite Forall_forall in Hsp. apply Hsp in Hin.
           discriminate Hin.
        -- discriminate Hin.
Qed.

Lemma sub_url_before_h (pre suf : str) :
  sub_url (pre ++ "h"%char :: suf)
  = sub_url pre ++ sub_url ("h"%char :: suf).
Proof.
  induction pre as [pre IH] using str_length_ind.
  destruct pre as [|c pre]; [reflexivity|].
  change ((c :: pre) ++ "h"%char :: suf)
    with (c :: (pre ++ "h"%char :: suf)).
  rewrite (sub_url_eq c (pre ++ "h"%char :: suf)), (sub_url_eq c pre).
  change (c :: (pre ++ "h"%char :: suf))
    with ((c :: pre) ++ "h"%char :: suf).
  rewrite url_match_before_h by discriminate.
  destruct (url_match (c :: pre)) as [rest|] eqn:Hm; cbn [option_map].
  - rewrite IH by exact (url_match_shorter _ Hm).
    now rewrite app_assoc.
  - cbn [app]. f_equal. apply IH. simpl. lia.
Qed.

(** X5: the URL rule repairs every split address where it stands: "https:/",
    any run of space characters and a slash become "https://", the text
    before and the text after being rewritten on their own. *)
Theorem url_rule_rewrites (pre ws post : str) :
  Forall (fun c => isspace c = true) ws ->
  sub_url (pre ++ lit "https:/" ++ ws ++ SLASH :: post)
  = sub_url pre ++ lit "https://" ++ sub_url post.
Proof.
  intros Hsp.
  change (lit "https:/" ++ ws ++ SLASH :: post)
    with ("h"%char :: lit "ttps:/" ++ ws ++ SLASH :: post).
  rewrite sub_url_before_h. f_equal.
  change ("h"%char :: lit "ttps:/" ++ ws ++ SLASH :: post)
    with (lit "https:/" ++ ws ++ SLASH :: post).
  destruct (lit "https:/" ++ ws ++ SLASH :: post) as [|c t] eqn:E;
    [discriminate|].
  rewrite sub_url_eq, <- E, url_match_here by exact Hsp.
  reflexivity.
Qed.

Lemma url_rule_rewrites_witness :
  sub_url (lit "see " ++ lit "https:/" ++ [LF; " "%char] ++ SLASH
           :: lit "example.com")
  = sub_url (lit "see ") ++ lit "https://" ++ sub_url (lit "example.com").
Proof.
  apply (@url_rule_rewrites (lit "see ") [LF; " "%char] (lit "example.com")).
  repeat constructor.
Defined.

(** *** Null characters and blank texts *)

Lemma remove_nul_twice (s : str) : remove_nul (remove_nul s) = remove_nul s.
Proof. apply remove_nul_fixed, remove_nul_clean. Qed.

(** X6: null characters are invisible to the normaliser: its output holds none,
    and it returns the same text whether or not they are taken out of its
    input beforehand. *)
Theorem nul_is_invisible (s : str) :
  ~ In NUL (_post_process_text s)
  /\ _post_process_text (remove_nul s) = _post_process_text s.
Proof.
  split; [apply post_no_nul|].
  destruct s as [|c s]; [reflexivity|].
  cbn [_post_process_text].
  destruct (remove_nul (c :: s)) as [|d t] eqn:E; [reflexivity|].
  cbn [_post_process_text]. rewrite <- E. now rewrite remove_nul_twice.
Qed.

Lemma word_is_no_space (c : ascii) : isword c = true -> isspace c = false.
Proof.
  destruct c as [b0 b1 b2 b3 b4 b5 b6 b7].
  destruct b0, b1, b2, b3, b4, b5, b6, b7;
    vm_compute; intros H; (reflexivity || discriminate H).
Qed.

Lemma lstrip_blank (s : str) :
  Forall (fun c => isspace c = true) s -> lstrip s = [].
Proof.
  induction 1 as [|c s Hc _ IH]; [reflexivity|].
  cbn [lstrip]. now rewrite Hc.
Qed.

Lemma strip_blank (s : str) :
  Forall (fun c => isspace c = true) s -> strip s = [].
Proof. intros H. unfold strip. now rewrite (lstrip_blank H). Qed.

Lemma strip_empty_blank (s : str) :
  strip s = [] -> Forall (fun c => isspace c = true) s.
Proof.
  intros H.
  destruct (lstrip_split s) as [w [Hw Hws]].
  destruct (rstrip_split (lstrip s)) as [v [Hv Hvs]].
  unfold strip in H. rewrite H in Hv. cbn [app] in Hv.
  rewrite Hw, Hv. now apply Forall_app.
Qed.

Lemma sub_hyphen_blank (s : str) :
  Forall (fun c => isspace c = true) (sub_hyphen s) ->
  Forall (fun c => isspace c = true) s.
Proof.
  induction s as [|a s IH]; [constructor|].
  rewrite sub_hyphen_eq.
  destruct (hyphen_match (a :: s)) as [[[x y] rest]|] eqn:Hm.
  - apply hyphen_match_Some in Hm. destruct Hm as [_ [Hx _]].
    intros H. apply Forall_inv in H.
    rewrite (word_is_no_space _ Hx) in H. discriminate.
  - intros H. inversion H; subst. constructor; auto.
Qed.

Lemma sub_url_blank (s : str) :
  Forall (fun c => isspace c = true) (sub_url s) ->
  Forall (fun c => isspace c = true) s.
Proof.
  induction s as [|c s IH]; [constructor|].
  rewrite sub_url_eq.
  destruct (url_match (c :: s)) as [rest|] eqn:Hm.
  - intros H. apply Forall_inv in H. discriminate H.
  - intros H. inversion H; subst. constructor; auto.
Qed.

Lemma remove_nul_blank (s : str) :
  Forall (fun c => isspace c = true) (remove_nul s)
  <-> Forall (fun c => isspace c = true \/ c = NUL) s.
Proof.
  induction s as [|c s IH]; [split; constructor|].
  unfold remove_nul in *. cbn [filter].
  destruct (Ascii.eqb c NUL) eqn:Hc; cbn [negb].
  - apply Ascii.eqb_eq in Hc. subst c. split; intros H.
    + constructor; [now right | now apply IH].
    + inversion H; subst. now apply IH.
  - split; intros H; inversion H; subst.
    + constructor; [now left | now apply IH].
    + constructor; [|now apply IH].
      destruct H2 as [H2| ->]; [exact H2|].
      now rewrite Ascii.eqb_refl in Hc.
Qed.

Lemma blank_has_no_split_url (s : str) :
  Forall (fun c => isspace c = true) s -> ~ split_url_in s.
Proof.
  intros Hs [pre [ws [post [_ [_ ->]]]]].
  apply Forall_app in Hs. destruct Hs as [_ Hs].
  apply Forall_inv in Hs. discriminate Hs.
Qed.

Lemma blank_has_no_hyphen_break (s : str) :
  Forall (fun c => isspace c = true) s -> ~ hyphen_break_in s.
Proof.
  intros Hs [pre [a [b [post [Ha [_ ->]]]]]].
  apply Forall_app in Hs. destruct Hs as [_ Hs].
  apply Forall_inv in Hs. rewrite (word_is_no_space _ Ha) in Hs.
  discriminate.
Qed.

(** X7: the normaliser returns the empty string exactly for the texts made of
    space and null characters only. *)
Theorem normalises_to_empty_iff_blank (s : str) :
  _post_process_text s = []
  <-> Forall (fun c => isspace c = true \/ c = NUL) s.
Proof.
  destruct s as [|c s]; [split; [constructor | reflexivity]|].
  cbn [_post_process_text]. rewrite <- remove_nul_blank.
  split.
  - intros H. now apply sub_url_blank, sub_hyphen_blank, strip_empty_blank.
  - intros H.
    rewrite (sub_url_fixed (blank_has_no_split_url H)).
    rewrite (sub_hyphen_fixed (blank_has_no_hyphen_break H)).
    now apply strip_blank.
Qed.

Lemma normalises_to_empty_iff_blank_witness :
  _post_process_text [" "%char; NUL; LF] = [].
Proof.
  apply (proj2 (normalises_to_empty_iff_blank [" "%char; NUL; LF])).
  repeat constructor; now right.
Defined.

(** X8: a text with nothing for the two rules to rewrite is only rid of its
    null characters and trimmed, which is what the retry of [parse_pdf] does
    to a page. *)
Theorem clean_text_is_only_trimmed (s : str) :
  ~ split_url_in (remove_nul s) ->
  ~ hyphen_break_in (remove_nul s) ->
  _post_process_text s = strip (remove_nul s).
Proof.
  intros Hu Hh.
  destruct s as [|c s]; [reflexivity|].
  cbn [_post_process_text].
  now rewrite (sub_url_fixed Hu), (sub_hyphen_fixed Hh).
Qed.

Lemma clean_text_is_only_trimmed_witness :
  _post_process_text (lit " well-known " ++ [NUL])
  = strip (remove_nul (lit " well-known " ++ [NUL])).
Proof.
  apply clean_text_is_only_trimmed.
  - intros H. apply split_url_has_slash in H.
    vm_compute in H. intuition discriminate.
  - intros [pre [a [b [post [_ [_ H]]]]]].
    assert (Hin : In LF (remove_nul (lit " well-known " ++ [NUL]))).
    { rewrite H. apply in_or_app. right. right. right. now left. }
    vm_compute in Hin. intuition discriminate.
Defined.

Lemma url_rule_changes_iff_witness :
  sub_url (lit "https:/ /x") <> lit "https:/ /x".
Proof.
  apply (proj2 (url_rule_changes_iff (lit "https:/ /x"))).
  exists [], [" "%char], (lit "x").
  split; [discriminate | split; [repeat constructor | reflexivity]].
Defined.

Lemma hyphen_rule_changes_iff_witness :
  sub_hyphen (lit "re-" ++ LF :: lit "do") <> lit "re-" ++ LF :: lit "do".
Proof.
  apply (proj2 (hyphen_rule_changes_iff (lit "re-" ++ LF :: lit "do"))).
  exists (lit "r"), "e"%char, "d"%char, (lit "o").
  split; [reflexivity | split; reflexivity].
Defined.

Lemma normaliser_only_deletes_witness :
  In "x"%char (lit " x ").
Proof.
  apply (proj2 (proj2 (normaliser_only_deletes (lit " x "))) "x"%char).
  vm_compute. now left.
Defined.

(** * Further properties of the extractors *)

Lemma existsb_perm (A : Type) (f : A -> bool) (l l' : list A) :
  Permutation l l' -> existsb f l = existsb f l'.
Proof.
  induction 1 as [| x l l' _ IH | x y l | l l' l'' _ IH1 _ IH2]; cbn.
  - reflexivity.
  - now rewrite IH.
  - now rewrite !orb_assoc, (orb_comm (f y)).
  - now rewrite IH1.
Qed.

Lemma existsb_sorted (A K : Type) (key : A -> K) (lt : K -> K -> bool)
  (f : A -> bool) (l : list A) :
  existsb f (sorted key lt l) = existsb f l.
Proof. symmetry. apply existsb_perm, sorted_perm. Qed.

Lemma join_nonempty (sep p : str) (ps : list str) :
  p <> [] -> join sep (p :: ps) <> [].
Proof.
  intros Hp. destruct ps as [|q ps]; [exact Hp|].
  cbn [join]. destruct p; [congruence | discriminate].
Qed.

Lemma span_parts_empty (sps : list Span) :
  is_empty (span_parts sps) = negb (existsb span_has_text sps).
Proof.
  induction sps as [|sp sps IH]; [reflexivity|].
  cbn [span_parts existsb]. unfold span_has_text at 1.
  destruct (is_empty (span_text sp)); [exact IH | reflexivity].
Qed.

Lemma span_parts_nonempty (sps : list Span) :
  Forall (fun p => p <> []) (span_parts sps).
Proof.
  induction sps as [|sp sps IH]; [constructor|].
  cbn [span_parts].
  destruct (span_text sp) eqn:E; [exact IH|].
  constructor; [discriminate | exact IH].
Qed.

Lemma line_parts_empty (sps : list Span) :
  is_empty (line_parts sps) = negb (existsb span_has_text sps).
Proof.
  unfold line_parts. now rewrite span_parts_empty, existsb_sorted.
Qed.

Lemma text_line_nonempty (sps : list Span) :
  is_empty (line_parts sps) = false -> text_line sps <> [].
Proof.
  unfold text_line. intros H.
  pose proof (span_parts_nonempty (sorted origin_x PrimFloat.ltb sps)) as Hall.
  fold (line_parts sps) in Hall.
  destruct (line_parts sps) as [|p ps]; [discriminate|].
  apply Forall_inv in Hall. cbn [concat].
  destruct p; [congruence | discriminate].
Qed.

Lemma collect_lines_empty (lns : list Line) :
  is_empty (collect_lines lns)
  = negb (existsb (fun ln => existsb span_has_text (spans ln)) lns).
Proof.
  induction lns as [|ln lns IH]; [reflexivity|].
  cbn [collect_lines existsb].
  rewrite line_parts_empty.
  destruct (existsb span_has_text (spans ln)); [reflexivity | exact IH].
Qed.

Lemma collect_lines_texts (lns : list Line) :
  Forall (fun t => cl_text t <> []) (collect_lines lns).
Proof.
  induction lns as [|ln lns IH]; [constructor|].
  cbn [collect_lines].
  destruct (is_empty (line_parts (spans ln))) eqn:E; [exact IH|].
  constructor; [now apply text_line_nonempty | exact IH].
Qed.

Lemma is_empty_app (A : Type) (l l' : list A) :
  is_empty (l ++ l') = is_empty l && is_empty l'.
Proof. now destruct l. Qed.

Lemma collect_blocks_empty (blocks : list Block) :
  is_empty (collect_blocks blocks) = negb (existsb block_has_text blocks).
Proof.
  induction blocks as [|b bs IH]; [reflexivity|].
  cbn [collect_blocks existsb]. unfold block_has_text at 1.
  destruct (is_text_type (block_type b)); cbn [negb andb orb]; [|exact IH].
  rewrite is_empty_app, collect_lines_empty, IH.
  now rewrite negb_orb.
Qed.

Lemma collect_blocks_texts (blocks : list Block) :
  Forall (fun t => cl_text t <> []) (collect_blocks blocks).
Proof.
  induction blocks as [|b bs IH]; [constructor|].
  cbn [collect_blocks].
  destruct (negb (is_text_type (block_type b))); [exact IH|].
  apply Forall_app. split; [apply collect_lines_texts | exact IH].
Qed.

(** *** The segmenter keeps every line *)

Lemma para_fold_groups (ls : list CollectedLine) :
  let st := fold_left para_step ls para_init in
  exists gs : list (list str),
    paragraphs st = map (join [LF]) gs
    /\ Forall (fun g => g <> []) gs
    /\ concat gs ++ current st = map cl_text ls
    /\ (forall y, prev_y1 st = Some y -> current st <> []).
Proof.
  induction ls as [|t ls IH] using rev_ind.
  - exists []. repeat split; try constructor. discriminate.
  - rewrite fold_left_app. cbn [fold_left].
    set (st := fold_left para_step ls para_init) in *.
    cbv zeta in IH. destruct IH as [gs [Hp [Hne [Hcat Hcur]]]].
    rewrite map_app. cbn [map].
    unfold para_step.
    destruct (prev_y1 st) as [py|] eqn:Hprev.
    + destruct (new_para py (prev_x0 st) t);
        cbn [paragraphs current prev_y1].
      * exists (gs ++ [current st]). repeat split.
        -- now rewrite Hp, map_app.
        -- apply Forall_app. split; [exact Hne|].
           constructor; [exact (Hcur py eq_refl) | constructor].
        -- rewrite concat_app. cbn [concat]. rewrite app_nil_r.
           now rewrite <- Hcat.
        -- discriminate.
      * exists gs. repeat split; auto.
        -- now rewrite app_assoc, Hcat.
        -- intros _ _ H. now apply app_eq_nil in H.
    + cbn [paragraphs current prev_y1].
      exists gs. repeat split; auto.
      * now rewrite app_assoc, Hcat.
      * intros _ _ H. now apply app_eq_nil in H.
Qed.

Lemma concat_length_groups (A : Type) (gs : list (list A)) :
  Forall (fun g => g <> []) gs -> length gs <= length (concat gs).
Proof.
  induction 1 as [|g gs Hg _ IH]; [auto|].
  cbn [concat length]. rewrite length_app.
  destruct g; [congruence | simpl; lia].
Qed.

Lemma group_paragraphs_groups (ls : list CollectedLine) :
  exists groups : list (list str),
    concat groups = map cl_text ls
    /\ Forall (fun g => g <> []) groups
    /\ group_paragraphs ls = map (join [LF]) groups.
Proof.
  destruct (para_fold_groups ls) as [gs [Hp [Hne [Hcat _]]]].
  unfold group_paragraphs.
  destruct (current (fold_left para_step ls para_init)) as [|c cur] eqn:E.
  - exists gs. rewrite app_nil_r in Hcat. auto.
  - exists (gs ++ [c :: cur]). repeat split.
    + rewrite concat_app. cbn [concat]. now rewrite app_nil_r.
    + apply Forall_app. split; [exact Hne|]. repeat constructor. discriminate.
    + now rewrite map_app, Hp.
Qed.

(** X9: the segmenter neither drops nor reorders a line: the paragraphs are the
    line texts, in their order, cut into consecutive non-empty groups, each
    group joined with newlines; so there are no more paragraphs than
    lines. *)
Theorem paragraphs_partition_lines (ls : list CollectedLine) :
  (exists groups : list (list str),
      concat groups = map cl_text ls
      /\ Forall (fun g => g <> []) groups
      /\ group_paragraphs ls = map (join [LF]) groups)
  /\ length (group_paragraphs ls) <= length ls.
Proof.
  pose proof (group_paragraphs_groups ls) as H.
  split; [exact H|].
  destruct H as [groups [Hcat [Hne ->]]].
  rewrite length_map, <- (length_map cl_text ls), <- Hcat.
  now apply concat_length_groups.
Qed.

(** *** When each tier answers *)

Lemma page_text_nonempty (ls : list CollectedLine) :
  ls <> [] -> Forall (fun t => cl_text t <> []) ls ->
  join [LF; LF] (group_paragraphs ls) <> [].
Proof.
  intros Hls Hall.
  destruct (group_paragraphs_groups ls) as [groups [Hcat [Hne ->]]].
  destruct ls as [|l ls]; [congruence|].
  apply Forall_inv in Hall.
  destruct groups as [|g groups]; [discriminate|].
  apply Forall_inv in Hne.
  destruct g as [|x g]; [congruence|].
  cbn in Hcat. injection Hcat as -> _.
  cbn [map]. apply join_nonempty, join_nonempty. exact Hall.
Qed.

Lemma sorted_is_empty (A K : Type) (key : A -> K) (lt : K -> K -> bool)
  (l : list A) :
  is_empty (sorted key lt l) = is_empty l.
Proof.
  pose proof (sorted_perm key lt l) as H.
  destruct l as [|x l].
  - reflexivity.
  - destruct (sorted key lt (x :: l)) eqn:E; [|reflexivity].
    apply Permutation_sym, Permutation_nil in H. discriminate.
Qed.

(** X10: Tier 1 answers exactly when some block of text type has a line with a
    span that carries text, whatever the order of the blocks: its text is
    then not empty and is returned without Tiers 2 and 3 being looked at;
    otherwise the selector returns what the block extractor returns. *)
Theorem tier1_answers_iff_text (round1 : float -> float)
  (blocks : list Block) :
  (existsb block_has_text blocks = true ->
   exists t, t <> []
     /\ forall page,
         get_text_rawdict page = Ok blocks ->
         _extract_page_text_rawdict round1 page = Ok t)
  /\ (existsb block_has_text blocks = false ->
      forall page,
        get_text_rawdict page = Ok blocks ->
        _extract_page_text_rawdict round1 page
        = _extract_page_text_blocks round1 page).
Proof.
  pose proof (collect_blocks_empty
                (sorted (_bbox_key round1) tuple_ltb blocks)) as He.
  rewrite existsb_sorted in He.
  split; intros Hb; rewrite Hb in He; cbn [negb] in He.
  - set (ls := sorted (line_key round1) tuple_ltb
                 (collect_blocks (sorted (_bbox_key round1) tuple_ltb blocks))).
    assert (Hne : join [LF; LF] (group_paragraphs ls) <> []).
    { apply page_text_nonempty.
      - intros E. pose proof (sorted_is_empty (line_key round1) tuple_ltb
          (collect_blocks (sorted (_bbox_key round1) tuple_ltb blocks))) as H.
        fold ls in H. rewrite E, He in H. discriminate.
      - apply (Permutation_Forall (sorted_perm _ _ _)).
        apply collect_blocks_texts. }
    exists (join [LF; LF] (group_paragraphs ls)). split; [exact Hne|].
    intros page Hr. unfold _extract_page_text_rawdict.
    rewrite Hr. cbv zeta. rewrite He. fold ls.
    destruct (join [LF; LF] (group_paragraphs ls)); [congruence | reflexivity].
  - intros page Hr. unfold _extract_page_text_rawdict.
    rewrite Hr. cbv zeta. now rewrite He.
Qed.

Lemma block_texts_empty (blocks : list TextBlock) :
  is_empty (block_texts blocks)
  = negb (existsb text_block_has_text blocks).
Proof.
  induction blocks as [|b bs IH]; [reflexivity|].
  cbn [block_texts existsb]. unfold text_block_has_text at 1.
  destruct (is_empty (tb_text b)); cbn [negb andb orb]; [exact IH|].
  destruct (is_text_type (tb_type b)); cbn [negb orb]; [reflexivity|exact IH].
Qed.

Lemma block_texts_nonempty (blocks : list TextBlock) :
  Forall (fun t => t <> []) (block_texts blocks).
Proof.
  induction blocks as [|b bs IH]; [constructor|].
  cbn [block_texts].
  destruct (tb_text b) eqn:E; cbn [is_empty]; [exact IH|].
  destruct (negb (is_text_type (tb_type b))); [exact IH|].
  constructor; [discriminate | exact IH].
Qed.

(** X11: Tier 2 answers exactly when some block of text type carries text,
    whatever the order of the blocks: its text is then not empty and is
    returned without the plain text being asked for; otherwise the block
    extractor returns the plain text of the page, or raises what that query
    raises. *)
Theorem tier2_answers_iff_text (round1 : float -> float)
  (blocks : list TextBlock) :
  (existsb text_block_has_text blocks = true ->
   exists t, t <> []
     /\ forall page,
         get_text_blocks page = Ok blocks ->
         _extract_page_text_blocks round1 page = Ok t)
  /\ (existsb text_block_has_text blocks = false ->
      forall page,
        get_text_blocks page = Ok blocks ->
        _extract_page_text_blocks round1 page = get_text_text page).
Proof.
  pose proof (block_texts_empty
                (sorted (block_key round1) tuple_ltb blocks)) as He.
  rewrite existsb_sorted in He.
  pose proof (block_texts_nonempty
                (sorted (block_key round1) tuple_ltb blocks)) as Hall.
  split; intros Hb; rewrite Hb in He; cbn [negb] in He.
  - destruct (block_texts (sorted (block_key round1) tuple_ltb blocks))
      as [|p ps] eqn:E; [discriminate|].
    apply Forall_inv in Hall.
    pose proof (join_nonempty [LF] ps Hall) as Hne.
    exists (join [LF] (p :: ps)). split; [exact Hne|].
    intros page Hq. unfold _extract_page_text_blocks.
    rewrite Hq. cbv zeta. rewrite E.
    destruct (join [LF] (p :: ps)); [congruence | reflexivity].
  - intros page Hq. unfold _extract_page_text_blocks.
    rewrite Hq. cbv zeta.
    destruct (block_texts (sorted (block_key round1) tuple_ltb blocks));
      [reflexivity | discriminate].
Qed.

Lemma tier1_answers_iff_text_witness :
  exists t, t <> []
    /\ forall page,
        get_text_rawdict page = Ok rich_blocks ->
        _extract_page_text_rawdict round1_binary64 page = Ok t.
Proof.
  apply (proj1 (tier1_answers_iff_text round1_binary64 rich_blocks)).
  reflexivity.
Defined.

Lemma tier2_answers_iff_text_witness :
  exists t, t <> []
    /\ forall page,
        get_text_blocks page = Ok sample_text_blocks ->
        _extract_page_text_blocks round1_binary64 page = Ok t.
Proof.
  apply (proj1 (tier2_answers_iff_text round1_binary64 sample_text_blocks)).
  reflexivity.
Defined.

(** *** When the selector raises *)

(** The block extractor raises exactly when Tier 2 yields nothing and the
    plain-text query raises. *)
Lemma blocks_extractor_raises_iff (round1 : float -> float) (page : Page)
  (e : exc) :
  _extract_page_text_blocks round1 page = Raise e
  <-> tier2_empty round1 page /\ get_text_text page = Raise e.
Proof.
  unfold _extract_page_text_blocks, tier2_empty.
  destruct (get_text_blocks page) as [blocks|e'].
  - cbv zeta.
    destruct (join [LF]
                (block_texts (sorted (block_key round1) tuple_ltb blocks)))
      as [|c j] eqn:Ej; cbn [is_empty].
    + split.
      * intros H. split; [|exact H].
        intros b Hq. injection Hq as <-. exact Ej.
      * now intros [_ H].
    + split; [discriminate|].
      intros [H _]. specialize (H blocks eq_refl). congruence.
  - split.
    + intros H. split; [discriminate | exact H].
    + now intros [_ H].
Qed.

(** C9, as stated: on a page whose three queries raise, the selector
    returns no string; it raises what the plain-text query raised. *)
Lemma selector_raises_with_plain_text :
  get_text_text page_failing = Raise RuntimeError
  /\ _extract_page_text_rawdict round1_binary64 page_failing
     = Raise RuntimeError
  /\ ~ (exists s,
           _extract_page_text_rawdict round1_binary64 page_failing = Ok s).
Proof.
  split; [reflexivity|]. split; [reflexivity|].
  intros [s H]. discriminate H.
Qed.

(** C9, amended: the failures of Tiers 1 and 2 are absorbed by falling
    back: whatever the two structured queries return or raise, the selector
    returns a string, possibly empty, whenever the plain-text query
    returns; the selector raises exactly when both structured tiers yield
    nothing and the plain-text query raises, and it raises what that query
    raised. *)
Theorem selector_raises_iff (round1 : float -> float) (page : Page) :
  (forall plain,
      get_text_text page = Ok plain ->
      exists s, _extract_page_text_rawdict round1 page = Ok s)
  /\ (forall e,
         _extract_page_text_rawdict round1 page = Raise e
         <-> tier1_empty round1 page
             /\ tier2_empty round1 page
             /\ get_text_text page = Raise e).
Proof.
  split.
  - pose proof (proj1 (blocks_extractor_returns round1 page)) as Hb.
    unfold _extract_page_text_rawdict.
    destruct (get_text_rawdict page) as [blocks|e']; [|exact Hb].
    cbv zeta.
    destruct (is_empty (collect_blocks _)); [exact Hb|].
    destruct (is_empty (join _ _)); [exact Hb | eauto].
  - intros e.
    pose proof (blocks_extractor_raises_iff round1 page e) as Hb.
    unfold _extract_page_text_rawdict, tier1_empty.
    destruct (get_text_rawdict page) as [blocks|e'].
    + cbv zeta.
      destruct (collect_blocks (sorted (_bbox_key round1) tuple_ltb blocks))
        as [|l ls] eqn:Ec; cbn [is_empty].
      * rewrite Hb. split.
        -- intros [H2 H3]. split; [|auto].
           intros b Hq. injection Hq as <-. exact Ec.
        -- now intros [_ H].
      * assert (Hne : join [LF; LF]
                        (group_paragraphs
                           (sorted (line_key round1) tuple_ltb (l :: ls)))
                      <> []).
        { apply page_text_nonempty.
          - intros E.
            pose proof (sorted_is_empty (line_key round1) tuple_ltb
                          (l :: ls)) as H.
            rewrite E in H. discriminate H.
          - apply (Permutation_Forall (sorted_perm _ _ _)).
            rewrite <- Ec. apply collect_blocks_texts. }
        destruct (join [LF; LF] _) as [|c j]; [congruence|].
        cbn [is_empty]. split; [discriminate|].
        intros [H _]. specialize (H blocks eq_refl). congruence.
    + rewrite Hb. split.
      * intros [H2 H3]. split; [discriminate | auto].
      * now intros [_ H].
Qed.

Lemma selector_raises_iff_witness :
  (exists s,
      _extract_page_text_rawdict round1_binary64 page_unstructured = Ok s)
  /\ _extract_page_text_rawdict round1_binary64 page_failing
     = Raise RuntimeError.
Proof.
  split.
  - apply (proj1 (selector_raises_iff round1_binary64 page_unstructured)
             (lit "x")).
    reflexivity.
  - apply (proj2 (selector_raises_iff round1_binary64 page_failing)).
    split; [|split].
    + intros blocks H. discriminate H.
    + intros blocks H. discriminate H.
    + reflexivity.
Defined.

(** * Further properties of the endpoints *)

Lemma startswith_iff (s prefix : str) :
  startswith s prefix = true <-> exists rest, s = prefix ++ rest.
Proof.
  revert s. induction prefix as [|p prefix IH]; intros s.
  - split; [intros _; now exists s | now destruct s].
  - destruct s as [|c s]; cbn [startswith].
    + split; [discriminate | intros [rest H]; discriminate H].
    + rewrite andb_true_iff, Ascii.eqb_eq, IH. split.
      * intros [-> [rest ->]]. now exists rest.
      * intros [rest H]. injection H as -> ->. split; [reflexivity|].
        now exists rest.
Qed.

Lemma is_pdf_iff (ct : option str) :
  is_pdf ct = true
  <-> exists rest, ct = Some (lit "application/pdf" ++ rest).
Proof.
  destruct ct as [t|]; cbn [is_pdf].
  - rewrite andb_true_iff, startswith_iff. split.
    + intros [_ [rest ->]]. now exists rest.
    + intros [rest H]. injection H as ->. split; [reflexivity|].
      now exists rest.
  - split; [discriminate | intros [rest H]; discriminate H].
Qed.

(** X12: an upload is turned down by both endpoints, whatever the document,
    unless its content type is given and begins with "application/pdf". *)
Theorem rejects_other_content_types (round1 : float -> float)
  (file : UploadFile) :
  (forall rest, content_type file <> Some (lit "application/pdf" ++ rest)) ->
  parse_pdf round1 file = Raise HTTPException
  /\ parse_pdf_text_only round1 file = Raise HTTPException.
Proof.
  intros Hct.
  assert (E : is_pdf (content_type file) = false).
  { destruct (is_pdf (content_type file)) eqn:E; [|reflexivity].
    apply is_pdf_iff in E. destruct E as [rest E]. now elim (Hct rest). }
  unfold parse_pdf, parse_pdf_text_only. now rewrite E.
Qed.

Lemma rejects_other_content_types_witness :
  parse_pdf round1_binary64 upload_not_pdf = Raise HTTPException
  /\ parse_pdf_text_only round1_binary64 upload_not_pdf = Raise HTTPException.
Proof.
  apply rejects_other_content_types.
  intros rest H. discriminate H.
Defined.

Lemma selector_ok_of_plain (round1 : float -> float) (page : Page)
  (t : str) :
  get_text_text page = Ok t ->
  exists s, _extract_page_text_rawdict round1 page = Ok s.
Proof.
  intros Hp.
  destruct (blocks_extractor_returns round1 page) as [Hb _].
  specialize (Hb t Hp).
  unfold _extract_page_text_rawdict.
  destruct (get_text_rawdict page) as [blocks|e]; [|exact Hb].
  cbv zeta.
  destruct (is_empty (collect_blocks _)); [exact Hb|].
  destruct (is_empty (join _ _)); [exact Hb | eauto].
Qed.

(** The page loops of the two endpoints stop on the same pages: the first
    attempt of [parse_pdf] and the loop of [parse_pdf_text_only] both
    complete, or both raise the same exception. *)
Lemma page_loops_agree (round1 : float -> float)
  (todo : list (result Page)) (page_num : nat) (acc : Accum) (full : str) :
  match snd (extract_pages round1 todo page_num acc),
        extract_text_only round1 todo full with
  | None, Ok _ => True
  | Some e, Raise e' => e = e'
  | _, _ => False
  end.
Proof.
  revert page_num acc full.
  induction todo as [|loaded todo IH]; intros page_num acc full;
    [exact I|].
  cbn [extract_pages extract_text_only].
  destruct loaded as [page|e]; cbn [bind snd]; [|reflexivity].
  destruct (_extract_page_text_rawdict round1 page) as [t|e];
    cbn [bind snd]; [apply IH | reflexivity].
Qed.

Lemma plain_loop_readable (todo : list (result Page)) (page_num : nat)
  (acc acc' : Accum) :
  extract_pages_plain todo page_num acc = (acc', None) ->
  Forall (fun loaded =>
            exists page t, loaded = Ok page /\ get_text_text page = Ok t)
    todo.
Proof.
  revert page_num acc.
  induction todo as [|loaded todo IH]; intros page_num acc H; [constructor|].
  cbn [extract_pages_plain] in H.
  destruct loaded as [page|e]; cbn [bind] in H; [|discriminate].
  destruct (get_text_text page) as [t|e] eqn:Ht; [|discriminate].
  constructor; [now exists page, t | eapply IH; exact H].
Qed.

Lemma readable_loop_text_only (round1 : float -> float)
  (todo : list (result Page)) (full : str) :
  Forall (fun loaded =>
            exists page t, loaded = Ok page /\ get_text_text page = Ok t)
    todo ->
  exists full', extract_text_only round1 todo full = Ok full'.
Proof.
  intros H. revert full.
  induction H as [|loaded todo [page [t [-> Ht]]] _ IH]; intros full.
  - now exists full.
  - cbn [extract_text_only bind].
    destruct (selector_ok_of_plain round1 page Ht) as [s ->].
    cbn [bind]. apply IH.
Qed.

Lemma readable_loop_pages (round1 : float -> float)
  (todo : list (result Page)) (page_num : nat) (acc : Accum) :
  Forall (fun loaded =>
            exists page t, loaded = Ok page /\ get_text_text page = Ok t)
    todo ->
  exists acc', extract_pages round1 todo page_num acc = (acc', None).
Proof.
  intros H. revert page_num acc.
  induction H as [|loaded todo [page [t [-> Ht]]] _ IH]; intros page_num acc.
  - now exists acc.
  - cbn [extract_pages bind].
    destruct (selector_ok_of_plain round1 page Ht) as [s ->].
    apply IH.
Qed.

(** X13: a readable document always parses: when the upload is declared a PDF,
    opens, needs no password and every page loads and answers the
    plain-text query, both endpoints return, with one record per page
    numbered from 1 and the page count of the document. *)
Theorem readable_document_parses (round1 : float -> float)
  (file : UploadFile) (doc : Document) :
  is_pdf (content_type file) = true ->
  fitz_open file = Ok doc ->
  still_needs_pass doc = false ->
  readable doc ->
  (exists r,
      parse_pdf round1 file = Ok r
      /\ map page_number (pages r) = seq 1 (page_count doc)
      /\ md_page_count (metadata r) = page_count doc)
  /\ (exists r',
         parse_pdf_text_only round1 file = Ok r'
         /\ to_page_count r' = page_count doc).
Proof.
  intros Hct Hopen Hpass Hread. split.
  - destruct (readable_loop_pages round1 0 acc0 Hread) as [acc' Hloop].
    assert (Hfirst : first_attempt round1 file acc0
                     = (acc', Ok (page_count doc))).
    { unfold first_attempt. now rewrite Hopen, Hpass, Hloop. }
    pose proof (first_attempt_done _ _ Hfirst) as [doc' [_ [_ [_ Hnum]]]].
    unfold parse_pdf. rewrite Hct. cbn [negb]. fold acc0. rewrite Hfirst.
    eexists. split; [reflexivity|]. cbn. auto.
  - destruct (readable_loop_text_only round1 [] Hread) as [full Hloop].
    unfold parse_pdf_text_only. rewrite Hct, Hopen. cbn [negb bind].
    rewrite Hpass, Hloop. cbn [bind].
    eexists. split; [reflexivity|]. reflexivity.
Qed.

Lemma readable_document_parses_witness :
  (exists r,
      parse_pdf round1_binary64 upload_plain = Ok r
      /\ map page_number (pages r)
         = seq 1 (page_count (open_document [Ok rich_page]))
      /\ md_page_count (metadata r)
         = page_count (open_document [Ok rich_page]))
  /\ (exists r',
         parse_pdf_text_only round1_binary64 upload_plain = Ok r'
         /\ to_page_count r' = page_count (open_document [Ok rich_page])).
Proof.
  apply (@readable_document_parses round1_binary64 upload_plain
           (open_document [Ok rich_page])); try reflexivity.
  repeat constructor. exists rich_page, (lit "plain"). now split.
Defined.

(** X14: only a [RuntimeError] is tried again: when [fitz.open] raises anything
    else, or the document still needs a password after the empty one was
    tried, both endpoints fail, whatever a second [fitz.open] would do. *)
Theorem only_runtime_errors_are_retried (round1 : float -> float)
  (file : UploadFile) :
  (exists e, fitz_open file = Raise e /\ is_RuntimeError e = false)
  \/ (exists doc, fitz_open file = Ok doc /\ still_needs_pass doc = true) ->
  parse_pdf round1 file = Raise HTTPException
  /\ parse_pdf_text_only round1 file = Raise HTTPException.
Proof.
  intros [[e [Hopen He]] | [doc [Hopen Hpass]]];
    unfold parse_pdf, parse_pdf_text_only, first_attempt;
    rewrite Hopen; cbn [bind]; [rewrite He | rewrite Hpass];
    cbn [is_RuntimeError];
    now destruct (negb (is_pdf (content_type file))).
Qed.

Lemma only_runtime_errors_are_retried_witness :
  parse_pdf round1_binary64 upload_locked = Raise HTTPException
  /\ parse_pdf_text_only round1_binary64 upload_locked = Raise HTTPException.
Proof.
  apply only_runtime_errors_are_retried.
  right. eexists. split; reflexivity.
Defined.

(** When the retry of [parse_pdf] completes, so does the retry of
    [parse_pdf_text_only], on the same document. *)
Lemma retries_agree (round1 : float -> float) (file : UploadFile)
  (acc1 acc2 : Accum) (n : nat) :
  retry_attempt file acc1 = (acc2, Ok n) ->
  exists full,
    (pdf_document <- fitz_open_retry file ;;
     full <- extract_text_only round1 (load_page pdf_document) [] ;;
     Ok (full, page_count pdf_document))
    = Ok (full, n).
Proof.
  unfold retry_attempt.
  destruct (fitz_open_retry file) as [doc|e]; cbn [bind]; [|discriminate].
  destruct (extract_pages_plain (load_page doc) 0 acc1) as [a [e|]] eqn:E;
    [discriminate|].
  intros H. injection H as _ <-.
  apply plain_loop_readable in E.
  destruct (readable_loop_text_only round1 [] E) as [full ->].
  now exists full.
Qed.

(** X15: whenever [parse_pdf] returns, [parse_pdf_text_only] returns too on the
    same upload, with the same page count and file name. *)
Theorem text_only_succeeds_when_parse_does (round1 : float -> float)
  (file : UploadFile) (r : PDFParseResponse) :
  parse_pdf round1 file = Ok r ->
  exists r',
    parse_pdf_text_only round1 file = Ok r'
    /\ to_page_count r' = md_page_count (metadata r)
    /\ to_filename r' = md_filename (metadata r).
Proof.
  unfold parse_pdf, parse_pdf_text_only, first_attempt. fold acc0.
  destruct (negb (is_pdf (content_type file))); [discriminate|].
  destruct (fitz_open file) as [doc|e] eqn:Hopen; cbn [bind].
  - destruct (still_needs_pass doc); [discriminate|].
    pose proof (page_loops_agree round1 (load_page doc) 0 acc0 []) as H.
    destruct (extract_pages round1 (load_page doc) 0 acc0) as [acc1 [e|]];
      cbn [snd] in H;
      destruct (extract_text_only round1 (load_page doc) []) as [full|e'];
      try contradiction; cbn [bind].
    + subst e'. destruct (is_RuntimeError e); [|discriminate].
      destruct (retry_attempt file acc1) as [acc2 [n|e2]] eqn:E;
        [|discriminate].
      destruct (@retries_agree round1 file _ _ _ E) as [full ->].
      intros H0. injection H0 as <-. eexists. cbn. eauto.
    + intros H0. injection H0 as <-. eexists. cbn. eauto.
  - destruct (is_RuntimeError e); [|discriminate].
    destruct (retry_attempt file acc0) as [acc2 [n|e2]] eqn:E;
      [|discriminate].
    destruct (@retries_agree round1 file _ _ _ E) as [full ->].
    intros H0. injection H0 as <-. eexists. cbn. eauto.
Qed.

Lemma text_only_succeeds_when_parse_does_witness :
  exists r',
    parse_pdf_text_only round1_binary64 upload_reopened = Ok r'
    /\ to_page_count r'
       = md_page_count
           (metadata
              {| text := lit "plain";
                 pages := [ {| page_number := 1; page_text := lit "plain" |} ];
                 metadata :=
                   {| md_page_count := 1; md_filename := Some (lit "b.pdf");
                      md_file_size := 2048 |} |})
    /\ to_filename r'
       = md_filename
           (metadata
              {| text := lit "plain";
                 pages := [ {| page_number := 1; page_text := lit "plain" |} ];
                 metadata :=
                   {| md_page_count := 1; md_filename := Some (lit "b.pdf");
                      md_file_size := 2048 |} |}).
Proof.
  apply (@text_only_succeeds_when_parse_does round1_binary64 upload_reopened).
  vm_compute. reflexivity.
Defined.

(** X16: what [parse_pdf] reports beside the text: the name and the size of the
    upload, and the page count of the document that the attempt that
    completed was reading.  When the first attempt completes, that is the
    document [fitz.open] returned the first time, and the pages returned
    are one record per page of it, in page order.  Otherwise the first
    attempt raised a [RuntimeError], the document is the one the second
    [fitz.open] returned, and the pages returned are what the first attempt
    had recorded followed by one record per page of that document, in page
    order. *)
Theorem metadata_describes_upload (round1 : float -> float)
  (file : UploadFile) (r : PDFParseResponse) :
  parse_pdf round1 file = Ok r ->
  md_filename (metadata r) = filename file
  /\ md_file_size (metadata r) = file_size file
  /\ ((exists doc acc,
          fitz_open file = Ok doc
          /\ first_attempt round1 file acc0 = (acc, Ok (page_count doc))
          /\ md_page_count (metadata r) = page_count doc
          /\ Forall2 (records_normalised round1) (load_page doc) (pages r))
      \/ (exists doc acc1 acc ps,
             first_attempt round1 file acc0 = (acc1, Raise RuntimeError)
             /\ fitz_open_retry file = Ok doc
             /\ retry_attempt file acc1 = (acc, Ok (page_count doc))
             /\ md_page_count (metadata r) = page_count doc
             /\ pages r = pages_data acc1 ++ ps
             /\ Forall2 records_plain (load_page doc) ps)).
Proof.
  intros H.
  assert (Hecho : md_filename (metadata r) = filename file
                  /\ md_file_size (metadata r) = file_size file).
  { revert H. unfold parse_pdf.
    destruct (negb (is_pdf (content_type file))); [discriminate|].
    destruct (first_attempt round1 file _) as [acc1 [n|e]].
    - intros H. injection H as <-. now split.
    - destruct (is_RuntimeError e); [|discriminate].
      destruct (retry_attempt file acc1) as [acc2 [n|e2]]; [|discriminate].
      intros H. injection H as <-. now split. }
  destruct Hecho as [Hname Hsize].
  split; [exact Hname|]. split; [exact Hsize|].
  apply parse_pdf_Ok in H.
  destruct H as [acc [_ [_ [Hpages Hpath]]]].
  destruct Hpath as [Hfirst | [acc1 [Hfirst Hretry]]].
  - left.
    destruct (first_attempt_done _ _ Hfirst) as [doc [Hopen [Hn [Hall _]]]].
    exists doc, acc. rewrite <- Hn, Hpages. auto.
  - right.
    pose proof Hretry as Hre. unfold retry_attempt in Hre.
    destruct (fitz_open_retry file) as [doc|e]; [|discriminate].
    destruct (extract_pages_plain (load_page doc) 0 acc1) as [acc2 [e|]] eqn:E;
      [discriminate|].
    injection Hre as -> Hn.
    apply extract_pages_plain_done in E.
    destruct E as [ps [Hps [Hall _]]].
    exists doc, acc1, acc, ps. rewrite Hn, Hpages. auto 7.
Qed.

Lemma metadata_describes_upload_witness :
  md_filename (metadata response_plain) = filename upload_plain
  /\ md_file_size (metadata response_plain) = file_size upload_plain
  /\ ((exists doc acc,
          fitz_open upload_plain = Ok doc
          /\ first_attempt round1_binary64 upload_plain acc0
             = (acc, Ok (page_count doc))
          /\ md_page_count (metadata response_plain) = page_count doc
          /\ Forall2 (records_normalised round1_binary64) (load_page doc)
               (pages response_plain))
      \/ (exists doc acc1 acc ps,
             first_attempt round1_binary64 upload_plain acc0
             = (acc1, Raise RuntimeError)
             /\ fitz_open_retry upload_plain = Ok doc
             /\ retry_attempt upload_plain acc1 = (acc, Ok (page_count doc))
             /\ md_page_count (metadata response_plain) = page_count doc
             /\ pages response_plain = pages_data acc1 ++ ps
             /\ Forall2 records_plain (load_page doc) ps)).
Proof.
  apply (@metadata_describes_upload round1_binary64 upload_plain
           response_plain).
  vm_compute. reflexivity.
Defined.

(** X17: what [parse_pdf_text_only] returns: the normaliser applied once to the
    outputs of the selector on the pages of the document that the attempt
    that completed was reading, in page order, each followed by a newline
    (no page is normalised on its own), with the page count of that
    document and the name of the upload. *)
Theorem text_only_response (round1 : float -> float) (file : UploadFile)
  (r : TextOnlyResponse) :
  parse_pdf_text_only round1 file = Ok r ->
  exists doc ts,
    (fitz_open file = Ok doc \/ fitz_open_retry file = Ok doc)
    /\ Forall2 (selected round1) (load_page doc) ts
    /\ to_text r = _post_process_text (concat (map (fun t => t ++ [LF]) ts))
    /\ to_page_count r = page_count doc
    /\ to_filename r = filename file.
Proof.
  unfold parse_pdf_text_only.
  destruct (negb (is_pdf (content_type file))); [discriminate|].
  cbv zeta.
  destruct (fitz_open file) as [doc|e] eqn:Hopen; cbn [bind].
  - destruct (still_needs_pass doc); cbn [is_RuntimeError]; [discriminate|].
    destruct (extract_text_only round1 (load_page doc) []) as [full|e] eqn:E;
      cbn [bind].
    + intros H. injection H as <-.
      apply extract_text_only_done in E. destruct E as [ts [Hall ->]].
      exists doc, ts. cbn. auto.
    + destruct (is_RuntimeError e); [|discriminate].
      destruct (fitz_open_retry file) as [doc2|e2] eqn:Hre; cbn [bind];
        [|discriminate].
      destruct (extract_text_only round1 (load_page doc2) [])
        as [full|e3] eqn:E2; cbn [bind]; [|discriminate].
      intros H. injection H as <-.
      apply extract_text_only_done in E2. destruct E2 as [ts [Hall ->]].
      exists doc2, ts. cbn. auto.
  - destruct (is_RuntimeError e); [|discriminate].
    destruct (fitz_open_retry file) as [doc2|e2] eqn:Hre; cbn [bind];
      [|discriminate].
    destruct (extract_text_only round1 (load_page doc2) [])
      as [full|e3] eqn:E2; cbn [bind]; [|discriminate].
    intros H. injection H as <-.
    apply extract_text_only_done in E2. destruct E2 as [ts [Hall ->]].
    exists doc2, ts. cbn. auto.
Qed.

Lemma text_only_response_witness :
  exists doc ts,
    (fitz_open upload_plain = Ok doc \/ fitz_open_retry upload_plain = Ok doc)
    /\ Forall2 (selected round1_binary64) (load_page doc) ts
    /\ to_text response_text_only
       = _post_process_text (concat (map (fun t => t ++ [LF]) ts))
    /\ to_page_count response_text_only = page_count doc
    /\ to_filename response_text_only = filename upload_plain.
Proof.
  apply (@text_only_response round1_binary64 upload_plain response_text_only).
  vm_compute. reflexivity.
Defined.

(** *** Page texts are tidy *)

Lemma post_tidy (s : str) : tidy (_post_process_text s).
Proof.
  split; [apply post_leading|].
  split; [apply post_trailing | apply post_no_nul].
Qed.

Lemma plain_cleaning_tidy (s : str) : tidy (strip (remove_nul s)).
Proof.
  split; [apply strip_leading|]. split; [apply strip_trailing|].
  intros H. apply strip_incl in H. exact (remove_nul_clean _ H).
Qed.

Lemma accumulate_tidy (acc : Accum) (page_num : nat) (t : str) :
  tidy t ->
  Forall (fun p => tidy (page_text p)) (pages_data acc) ->
  Forall (fun p => tidy (page_text p))
    (pages_data (accumulate acc page_num t)).
Proof.
  intros Ht Hall. cbn [accumulate pages_data].
  apply Forall_app. split; [exact Hall|].
  constructor; [exact Ht | constructor].
Qed.

Lemma extract_pages_tidy (round1 : float -> float)
  (todo : list (result Page)) (page_num : nat) (acc : Accum) :
  Forall (fun p => tidy (page_text p)) (pages_data acc) ->
  Forall (fun p => tidy (page_text p))
    (pages_data (fst (extract_pages round1 todo page_num acc))).
Proof.
  revert page_num acc.
  induction todo as [|loaded todo IH]; intros page_num acc H; [exact H|].
  cbn [extract_pages].
  destruct (bind loaded _) as [ptext|e]; [|exact H].
  apply IH, accumulate_tidy; [apply post_tidy | exact H].
Qed.

Lemma extract_pages_plain_tidy (todo : list (result Page)) (page_num : nat)
  (acc : Accum) :
  Forall (fun p => tidy (page_text p)) (pages_data acc) ->
  Forall (fun p => tidy (page_text p))
    (pages_data (fst (extract_pages_plain todo page_num acc))).
Proof.
  revert page_num acc.
  induction todo as [|loaded todo IH]; intros page_num acc H; [exact H|].
  cbn [extract_pages_plain].
  destruct (bind loaded _) as [ptext|e]; [|exact H].
  apply IH, accumulate_tidy; [apply plain_cleaning_tidy | exact H].
Qed.

(** X18: every text that [parse_pdf] returns, the full text and the text of each
    page on either attempt, neither begins nor ends with a space character
    and holds no null character. *)
Theorem returned_texts_are_tidy (round1 : float -> float)
  (file : UploadFile) (r : PDFParseResponse) :
  parse_pdf round1 file = Ok r ->
  tidy (text r) /\ Forall (fun p => tidy (page_text p)) (pages r).
Proof.
  intros H. apply parse_pdf_Ok in H.
  destruct H as [acc [_ [-> [-> Hpath]]]].
  split; [apply post_tidy|].
  assert (H1 : Forall (fun p => tidy (page_text p))
                 (pages_data (fst (first_attempt round1 file acc0)))).
  { unfold first_attempt.
    destruct (fitz_open file) as [doc|e]; [|constructor].
    destruct (still_needs_pass doc); [constructor|].
    pose proof (@extract_pages_tidy round1 (load_page doc) 0 acc0
                  (Forall_nil _)) as Ht.
    now destruct (extract_pages round1 (load_page doc) 0 acc0) as [a [e|]]. }
  destruct Hpath as [Hfirst | [acc1 [Hfirst Hretry]]];
    rewrite Hfirst in H1; cbn [fst] in H1; [exact H1|].
  unfold retry_attempt in Hretry.
  destruct (fitz_open_retry file) as [doc|e]; [|discriminate].
  pose proof (@extract_pages_plain_tidy (load_page doc) 0 acc1 H1) as Ht.
  destruct (extract_pages_plain (load_page doc) 0 acc1) as [a [e|]];
    [discriminate|].
  injection Hretry as -> _. exact Ht.
Qed.

Lemma returned_texts_are_tidy_witness :
  tidy (text response_plain)
  /\ Forall (fun p => tidy (page_text p)) (pages response_plain).
Proof.
  apply (@returned_texts_are_tidy round1_binary64 upload_plain response_plain).
  vm_compute. reflexivity.
Defined.

(** X19: as long as no page is on record when a [RuntimeError] ends the first
    attempt (it came from [fitz.open], or there was none), the pages that
    [parse_pdf] returns are numbered 1, 2, ... up to the page count it
    reports. *)
Theorem pages_numbered_to_page_count (round1 : float -> float)
  (file : UploadFile) (r : PDFParseResponse) :
  parse_pdf round1 file = Ok r ->
  (forall acc, first_attempt round1 file acc0 = (acc, Raise RuntimeError) ->
               pages_data acc = []) ->
  map page_number (pages r) = seq 1 (md_page_count (metadata r))
  /\ length (pages r) = md_page_count (metadata r).
Proof.
  intros H Hclean. apply parse_pdf_Ok in H.
  destruct H as [acc [_ [_ [Hpages Hpath]]]].
  assert (Hn : map page_number (pages_data acc)
               = seq 1 (md_page_count (metadata r))).
  { destruct Hpath as [Hfirst | [acc1 [Hfirst Hretry]]].
    - apply first_attempt_done in Hfirst.
      now destruct Hfirst as [doc [_ [_ [_ Hnum]]]].
    - pose proof (Hclean acc1 Hfirst) as Hnil.
      pose proof (@first_attempt_in_step round1 file acc0 eq_refl) as H1.
      rewrite Hfirst in H1. cbn [fst] in H1.
      unfold in_step in H1. rewrite Hnil in H1.
      assert (acc1 = acc0) as ->.
      { destruct acc1 as [pd ft]. cbn in Hnil, H1. now subst. }
      apply retry_attempt_done in Hretry.
      now destruct Hretry as [doc [_ [_ [_ Hnum]]]]. }
  rewrite Hpages. split; [exact Hn|].
  apply (f_equal (@length nat)) in Hn.
  now rewrite length_map, length_seq in Hn.
Qed.

Lemma pages_numbered_to_page_count_witness :
  map page_number
    [ {| page_number := 1; page_text := lit "plain" |} ]
  = seq 1 1
  /\ length [ {| page_number := 1; page_text := lit "plain" |} ] = 1.
Proof.
  apply (@pages_numbered_to_page_count round1_binary64 upload_reopened
           {| text := lit "plain";
              pages := [ {| page_number := 1; page_text := lit "plain" |} ];
              metadata :=
                {| md_page_count := 1; md_filename := Some (lit "b.pdf");
                   md_file_size := 2048 |} |}).
  - vm_compute. reflexivity.
  - intros acc H. vm_compute in H. now injection H as <-.
Defined.

(** * The order in which the backend lists the blocks *)

(** Two lists in ascending order of their keys that hold the same elements
    are equal, when no two different elements tie. *)
Lemma sorted_unique (A K : Type) (key : A -> K) (lt : K -> K -> bool)
  (l1 l2 : list A) :
  StronglySorted (key_le key lt) l1 ->
  StronglySorted (key_le key lt) l2 ->
  Permutation l1 l2 ->
  (forall a b, In a l1 -> In b l1 ->
               same_key lt (key a) (key b) = true -> a = b) ->
  l1 = l2.
Proof.
  intros H1. revert l2.
  induction H1 as [|x l1 H1 IH Hx]; intros l2 H2 Hp Htie.
  - now apply Permutation_nil in Hp.
  - destruct H2 as [|y l2 H2 Hy].
    { apply Permutation_sym, Permutation_nil in Hp. discriminate. }
    assert (Hxy : x = y).
    { assert (Hin1 : In x (y :: l2))
        by (apply (Permutation_in _ Hp); now left).
      assert (Hin2 : In y (x :: l1))
        by (apply (Permutation_in _ (Permutation_sym Hp)); now left).
      destruct Hin1 as [->|Hin1]; [reflexivity|].
      destruct Hin2 as [->|Hin2]; [reflexivity|].
      rewrite Forall_forall in Hx, Hy.
      apply Htie; [now left | now right |].
      unfold same_key. specialize (Hx y Hin2). specialize (Hy x Hin1).
      unfold key_le in Hx, Hy. now rewrite Hx, Hy. }
    subst y. f_equal.
    apply IH; [exact H2 | exact (Permutation_cons_inv Hp) |].
    intros a b Ha Hb. apply Htie; now right.
Qed.

Lemma sorted_of_permutation (A K : Type) (key : A -> K)
  (lt : K -> K -> bool) (l l' : list A) :
  Permutation l l' ->
  strict_weak_on lt (map key l) ->
  (forall a b, In a l -> In b l ->
               same_key lt (key a) (key b) = true -> a = b) ->
  sorted key lt l = sorted key lt l'.
Proof.
  intros Hp Hk Htie.
  apply sorted_unique with (key := key) (lt := lt).
  - now apply sorted_sorted.
  - apply sorted_sorted.
    apply (strict_weak_on_incl (ks := map key l)); [|exact Hk].
    intros k Hin. apply in_map_iff in Hin. destruct Hin as [z [<- Hz]].
    apply in_map. exact (Permutation_in z (Permutation_sym Hp) Hz).
  - eapply perm_trans; [apply Permutation_sym, sorted_perm|].
    eapply perm_trans; [exact Hp | apply sorted_perm].
  - intros a b Ha Hb.
    pose proof (Permutation_sym (sorted_perm key lt l)) as Hs.
    apply Htie; [exact (Permutation_in a Hs Ha) | exact (Permutation_in b Hs Hb)].
Qed.

(** X20: the block extractor does not depend on the order in which the backend
    lists the blocks, as long as their sort keys (top and left edge, each
    rounded to a tenth) are ordered by [<] and no two blocks share a
    key. *)
Theorem tier2_ignores_block_order (round1 : float -> float)
  (blocks blocks' : list TextBlock) (page page' : Page) :
  Permutation blocks blocks' ->
  strict_weak_on tuple_ltb (map (block_key round1) blocks) ->
  (forall a b, In a blocks -> In b blocks ->
     same_key tuple_ltb (block_key round1 a) (block_key round1 b) = true ->
     a = b) ->
  get_text_blocks page = Ok blocks ->
  get_text_blocks page' = Ok blocks' ->
  get_text_text page = get_text_text page' ->
  _extract_page_text_blocks round1 page
  = _extract_page_text_blocks round1 page'.
Proof.
  intros Hp Hk Htie Hb Hb' Ht.
  unfold _extract_page_text_blocks.
  rewrite Hb, Hb', Ht. cbv zeta.
  now rewrite (sorted_of_permutation (block_key round1) Hp Hk Htie).
Qed.

Lemma tier2_ignores_block_order_witness :
  _extract_page_text_blocks round1_binary64
    {| get_text_rawdict := Ok []; get_text_blocks := Ok text_blocks_lower_first;
       get_text_text := Ok [] |}
  = _extract_page_text_blocks round1_binary64
      {| get_text_rawdict := Ok [];
         get_text_blocks := Ok (rev text_blocks_lower_first);
         get_text_text := Ok [] |}.
Proof.
  apply (@tier2_ignores_block_order round1_binary64 text_blocks_lower_first
           (rev text_blocks_lower_first)); try reflexivity.
  - apply Permutation_rev.
  - intros a b c Ha Hb Hc. simpl in Ha, Hb, Hc.
    destruct Ha as [<-|[<-|[]]], Hb as [<-|[<-|[]]], Hc as [<-|[<-|[]]];
      vm_compute; repeat split; intros; congruence.
  - intros a b Ha Hb. simpl in Ha, Hb.
    destruct Ha as [<-|[<-|[]]], Hb as [<-|[<-|[]]];
      intros H; (reflexivity || (vm_compute in H; discriminate H)).
Defined.
